(** * macSimpleParser: the menu crawler of [main.py]

    A shallow embedding of [MacParser] (field extraction, the item fetcher
    [_parse_item], and [fetch_menu] with its [asyncio.Semaphore] and
    [asyncio.gather]) together with the properties of its specification. *)

From Stdlib Require Import String Ascii NArith.
From stdpp Require Import gmap list.

Set Default Proof Using "Type".

(** ** Python strings

    A Python [str] is a sequence of Unicode code points. *)

Abbreviation str := (list N).

Definition lit (s : string) : str := N_of_ascii <$> list_ascii_of_string s.
Arguments lit s%_string.

(** [str.isspace] on one code point, the test [str.strip()] uses. *)
Definition isspace (c : N) : bool :=
  ((9 <=? c) && (c <=? 13) || (28 <=? c) && (c <=? 32)
   || (c =? 133) || (c =? 160) || (c =? 5760)
   || (8192 <=? c) && (c <=? 8202)
   || (c =? 8232) || (c =? 8233) || (c =? 8239) || (c =? 8287)
   || (c =? 12288))%N.

Fixpoint lstrip (s : str) : str :=
  match s with
  | c :: s' => if isspace c then lstrip s' else s
  | [] => []
  end.

Definition rstrip (s : str) : str := reverse (lstrip (reverse s)).

(** [s.strip()] *)
Definition strip (s : str) : str := rstrip (lstrip s).

(** [sep.join(parts)] *)
Fixpoint join (sep : str) (parts : list str) : str :=
  match parts with
  | [] => []
  | [p] => p
  | p :: rest => p ++ sep ++ join sep rest
  end.

Definition newline : str := [10%N].

(** [s] consists of whitespace only. *)
Definition whitespace (s : str) : Prop := Forall (λ c, isspace c = true) s.

(** [out] neither starts nor ends with whitespace. *)
Definition trimmed (out : str) : Prop :=
  (∀ c, head out = Some c → isspace c = false)
  ∧ (∀ c, last out = Some c → isspace c = false).

(** [out] is [s] without its leading and trailing whitespace. *)
Definition stripped_of (s out : str) : Prop :=
  ∃ l r, s = l ++ out ++ r ∧ whitespace l ∧ whitespace r ∧ trimmed out.

(** ** The document interface (BeautifulSoup)

    A [Tag] as the crawler reads it: its [attrs] dictionary and its [text]. *)

Record Tag := mkTag { attrs : gmap (list N) (list N); text : str }.

(** What the crawler asks of a parsed document: [soup.select(selector)] and
    [soup.find_all(attrs={key: value})], both in document order. *)
Class Document (Soup : Type) := {
  select : Soup → str → list Tag;
  find_all : Soup → str → str → list Tag
}.

(** [soup.select_one(selector)]: the first element [select] would give. *)
Definition select_one `{Document Soup} (soup : Soup) (selector : str) : option Tag :=
  head (select soup selector).

(** ** [MenuItem] *)

Record MenuItem := mkMenuItem {
  name : str;
  description : str;
  calories : str;
  fats : str;
  carbs : str;
  proteins : str;
  unsaturated_fats : str;
  sugar : str;
  salt : str;
  portion : str
}.

(** ** Field extraction *)

Section Extraction.
Context `{Document Soup}.

Definition _take_hidden (soup : Soup) (selector : str) : str :=
  let selected := select soup selector in
  join newline ((λ tag, strip (text tag)) <$> selected).

(** A [Tag] is always truthy, so [if selected:] tests for [None] only. *)
Definition _take_string_opt (soup : Soup) (selector : str) : str :=
  match select_one soup selector with
  | Some selected => strip (text selected)
  | None => []
  end.

Definition name_selector : str :=
  lit "span.cmp-product-details-main__heading-title".
Definition description_selector : str :=
  lit "div.cmp-product-details-main__description".
Definition calories_selector : str :=
  lit "li.cmp-nutrition-summary__heading-primary-item:nth-child(1) span[aria-hidden]:not([class])".
Definition fats_selector : str :=
  lit "li.cmp-nutrition-summary__heading-primary-item:nth-child(2) span[aria-hidden]:not([class])".
Definition carbs_selector : str :=
  lit "li.cmp-nutrition-summary__heading-primary-item:nth-child(3) span[aria-hidden]:not([class])".
Definition proteins_selector : str :=
  lit "li.cmp-nutrition-summary__heading-primary-item:nth-child(4) span[aria-hidden]:not([class])".
Definition unsaturated_fats_selector : str :=
  lit "div.cmp-nutrition-summary__details-column-view-desktop li.label-item:nth-child(1) > span:nth-child(2) span[aria-hidden]:not([class])".
Definition sugar_selector : str :=
  lit "div.cmp-nutrition-summary__details-column-view-desktop li.label-item:nth-child(2) > span:nth-child(2) span[aria-hidden]:not([class])".
Definition salt_selector : str :=
  lit "div.cmp-nutrition-summary__details-column-view-desktop li.label-item:nth-child(3) > span:nth-child(2) span[aria-hidden]:not([class])".
Definition portion_selector : str :=
  lit "div.cmp-nutrition-summary__details-column-view-desktop li.label-item:nth-child(4) > span:nth-child(2) span[aria-hidden]:not([class])".

(** The record [_parse_item] builds from the parsed page (lines 82-106). *)
Definition extract_item (soup : Soup) : MenuItem :=
  let item_name := _take_string_opt soup name_selector in
  {| name := item_name;
     description := _take_string_opt soup description_selector;
     calories := _take_hidden soup calories_selector;
     fats := _take_hidden soup fats_selector;
     carbs := _take_hidden soup carbs_selector;
     proteins := _take_hidden soup proteins_selector;
     unsaturated_fats := _take_hidden soup unsaturated_fats_selector;
     sugar := _take_hidden soup sugar_selector;
     salt := _take_hidden soup salt_selector;
     portion := _take_hidden soup portion_selector |}.

(** The fields of a [MenuItem] with the selector [_parse_item] passes for
    each, by the function that reads them. *)
Definition string_opt_fields : list ((MenuItem → str) * str) :=
  [(name, name_selector); (description, description_selector)].

Definition hidden_fields : list ((MenuItem → str) * str) :=
  [(calories, calories_selector); (fats, fats_selector);
   (carbs, carbs_selector); (proteins, proteins_selector);
   (unsaturated_fats, unsaturated_fats_selector); (sugar, sugar_selector);
   (salt, salt_selector); (portion, portion_selector)].
End Extraction.

(** ** Exceptions and the outside world *)

Inductive exn :=
| KeyError (key : str)
| ValueError (msg : str)
| HTTPError (msg : str)
| PlaywrightError (msg : str)
| ParserRejectedMarkup (msg : str)
| UnicodeEncodeError.

Inductive result (A : Type) :=
| Ok (a : A)
| Raise (e : exn).
Arguments Ok {A} a.
Arguments Raise {A} e.

(** What the world does for one invocation of [_parse_item]: the outcome of
    each awaited call on its page ([None]: the call returns normally) and
    of the [print] of a line to the standard output. Every awaited call
    is taken to answer, by a value or by an exception (Playwright ends a
    stalled navigation by its own timeout error); a call that never
    answers, which would leave its task suspended for good, is not among
    the runs described here. *)
Record PageRun := mkPageRun {
  new_page_res : option exn;
  goto_res : option exn;
  content_res : result str;
  close_res : option exn;
  print_res : str → option exn
}.

(** The line [_parse_item] prints for an item. *)
Definition item_parsed (item_name : str) : str :=
  lit "Item parsed - " ++ [34%N] ++ item_name ++ [34%N].

(** ** Tasks, the semaphore and the event loop *)

(** Where a [_parse_item] coroutine stands; it is suspended at an [await]
    in every stage but the last two. *)
Inductive Stage :=
| Created                     (* built by the comprehension, not yet run *)
| Waiting                     (* suspended in [semaphore.acquire()] *)
| Entered                     (* inside [async with], at [new_page()] *)
| AtGoto                      (* at [page.goto(item_link)] *)
| AtContent                   (* at [page.content()] *)
| AtClose (item : MenuItem)   (* item built, at [page.close()] *)
| Returned (item : MenuItem)
| Raised (e : exn).

(** The page of an invocation as the code knows it: not opened yet, open,
    closed by a [page.close()] that returned, or left by a [page.close()]
    that raised, of which the code cannot tell whether it is still open. *)
Inductive PageStatus := NoPage | PageOpen | PageClosed | PageCloseRaised.

Record Task := mkTask {
  item_link : str;
  stage : Stage;
  page : PageStatus
}.

(** [asyncio.Semaphore]: the counter and the FIFO queue of the tasks
    suspended in [acquire], by position in [gather]. *)
Record Semaphore := mkSemaphore {
  value : nat;
  waiters : list nat
}.

(** The calls made on pages and the lines printed, tagged with the task. *)
Inductive Event :=
| EvNewPage (i : nat)
| EvGoto (i : nat) (url : str)
| EvContent (i : nat)
| EvClose (i : nat)
| EvPrint (item_name : str).

(** The event loop while [gather] is awaited: the child tasks by position,
    the shared semaphore, the exception [gather] has passed on (the first
    one), and what has happened so far, latest first. *)
Record Loop := mkLoop {
  tasks : list Task;
  semaphore : Semaphore;
  outer : option exn;
  log : list Event
}.

Inductive Outcome :=
| Pending
| Raises (e : exn)
| Returns (menu : list MenuItem).

#[global] Instance exn_eq_dec : EqDecision exn.
Proof. solve_decision. Defined.
#[global] Instance PageStatus_eq_dec : EqDecision PageStatus.
Proof. solve_decision. Defined.
#[global] Instance MenuItem_eq_dec : EqDecision MenuItem.
Proof. solve_decision. Defined.
#[global] Instance Stage_eq_dec : EqDecision Stage.
Proof. solve_decision. Defined.

(** The task is past [semaphore.acquire()] and before the release. *)
Definition holds_slot (t : Task) : bool :=
  match stage t with
  | Entered | AtGoto | AtContent | AtClose _ => true
  | _ => false
  end.

(** The task can be resumed by the event loop. *)
Definition runnable (t : Task) : bool :=
  match stage t with
  | Created | Entered | AtGoto | AtContent | AtClose _ => true
  | Waiting | Returned _ | Raised _ => false
  end.

(** How many tasks hold a slot of the semaphore. *)
Definition active (ts : list Task) : nat :=
  sum_list_with (λ t, Nat.b2n (holds_slot t)) ts.

(** How many pages are open. *)
Definition open_pages (ts : list Task) : nat :=
  sum_list_with (λ t, Nat.b2n (bool_decide (page t = PageOpen))) ts.

(** An upper bound on the resumptions a task still has before it ends. *)
Definition remaining (t : Task) : nat :=
  match stage t with
  | Created => 6
  | Waiting => 5
  | Entered => 4
  | AtGoto => 3
  | AtContent => 2
  | AtClose _ => 1
  | Returned _ | Raised _ => 0
  end.

Definition work_left (s : list Task) : nat := sum_list_with remaining s.

(** The pages navigated to, as (task, URL), from the log. *)
Definition navigations (l : list Event) : list (nat * str) :=
  omap (λ e, match e with EvGoto i url => Some (i, url) | _ => None end) l.

Definition set_stage (st : Stage) (t : Task) : Task :=
  {| item_link := item_link t; stage := st; page := page t |}.

Definition set_page (p : PageStatus) (t : Task) : Task :=
  {| item_link := item_link t; stage := stage t; page := p |}.

Definition set_task (i : nat) (t : Task) (s : Loop) : Loop :=
  {| tasks := <[i := t]> (tasks s); semaphore := semaphore s;
     outer := outer s; log := log s |}.

Definition emit (e : Event) (s : Loop) : Loop :=
  {| tasks := tasks s; semaphore := semaphore s; outer := outer s;
     log := e :: log s |}.

(** [semaphore.acquire()] by task [i]: taken at once when the semaphore is
    not locked, else the task joins the queue and suspends. *)
Definition acquire (i : nat) (t : Task) (s : Loop) : Loop :=
  let sem := semaphore s in
  if bool_decide (0 < value sem ∧ waiters sem = []) then
    {| tasks := <[i := set_stage Entered t]> (tasks s);
       semaphore := {| value := value sem - 1; waiters := waiters sem |};
       outer := outer s; log := log s |}
  else
    {| tasks := <[i := set_stage Waiting t]> (tasks s);
       semaphore := {| value := value sem; waiters := waiters sem ++ [i] |};
       outer := outer s; log := log s |}.

(** [semaphore.release()], as in CPython 3.11 and later: the slot goes to
    the longest-waiting task, which is woken holding it; with nobody waiting
    the counter goes up. *)
Definition release (s : Loop) : Loop :=
  let sem := semaphore s in
  match waiters sem with
  | [] =>
      {| tasks := tasks s;
         semaphore := {| value := value sem + 1; waiters := [] |};
         outer := outer s; log := log s |}
  | j :: rest =>
      {| tasks := alter (set_stage Entered) j (tasks s);
         semaphore := {| value := value sem; waiters := rest |};
         outer := outer s; log := log s |}
  end.

(** [gather] without [return_exceptions]: the first exception of a child is
    the one passed on to the awaiting caller. *)
Definition propagate (e : exn) (s : Loop) : Loop :=
  {| tasks := tasks s; semaphore := semaphore s;
     outer := match outer s with Some e0 => Some e0 | None => Some e end;
     log := log s |}.

(** Task [i] leaves [async with semaphore] by an exception. *)
Definition fail (i : nat) (t : Task) (e : exn) (s : Loop) : Loop :=
  propagate e (release (set_task i (set_stage (Raised e) t) s)).

Definition results (ts : list Task) : option (list MenuItem) :=
  mapM (λ t, match stage t with Returned item => Some item | _ => None end) ts.

(** What [await asyncio.gather(...)] gives the caller in this state. *)
Definition gather_outcome (s : Loop) : Outcome :=
  match outer s with
  | Some e => Raises e
  | None =>
      match results (tasks s) with
      | Some menu => Returns menu
      | None => Pending
      end
  end.

(** ** [MacParser] *)

(** The parser object: the HTTP session (what [session.get(url)] answers,
    as the response's [content]), the browser context (what happens to the
    page of the [i]-th [_parse_item] call, opened for a URL) and the limit
    on simultaneously open pages, which [asyncio.Semaphore] wants
    non-negative. *)
Record MacParser := mkMacParser {
  session : str → result str;
  context : nat → str → PageRun;
  max_sim_pages : nat
}.

Definition BASE_URL : str := lit "https://www.mcdonalds.com".

Section Crawler.
Context `{Document Soup}.
(** [BeautifulSoup(markup, 'html.parser')] and [urllib.parse.urljoin];
    the parser can reject its markup and [urljoin] its URL. *)
Variable BeautifulSoup : str → result Soup.
Variable urljoin : str → str → result str.

(** The item a page run yields when its content can be read and parsed. *)
Definition item_of (r : PageRun) : option MenuItem :=
  match content_res r with
  | Ok page_content =>
      match BeautifulSoup page_content with
      | Ok soup => Some (extract_item soup)
      | Raise _ => None
      end
  | Raise _ => None
  end.

(** The first exception an invocation with this page run meets, if any:
    from the calls on the page, the parse of the content or the [print]. *)
Definition script_failure (r : PageRun) : option exn :=
  match new_page_res r with
  | Some e => Some e
  | None =>
      match goto_res r with
      | Some e => Some e
      | None =>
          match content_res r with
          | Raise e => Some e
          | Ok page_content =>
              match BeautifulSoup page_content with
              | Raise e => Some e
              | Ok soup =>
                  match close_res r with
                  | Some e => Some e
                  | None => print_res r (item_parsed (name (extract_item soup)))
                  end
              end
          end
      end
  end.

(** The page as the invocation leaves it when it ends. *)
Definition page_at_exit (r : PageRun) : PageStatus :=
  match new_page_res r with
  | Some _ => NoPage
  | None =>
      match goto_res r, item_of r with
      | None, Some _ =>
          match close_res r with
          | Some _ => PageCloseRaised
          | None => PageClosed
          end
      | _, _ => PageOpen
      end
  end.

(** The invocation ends by an exception with its page opened and
    [page.close()] not called: [page.goto], [page.content] or the parse of
    the content raises. *)
Definition fails_before_close (r : PageRun) : Prop :=
  new_page_res r = None ∧ (goto_res r ≠ None ∨ item_of r = None).

(** The invocation ends by an exception after [page.close()] has
    returned: only the [print] can raise then. *)
Definition fails_after_close (r : PageRun) : Prop :=
  new_page_res r = None ∧ goto_res r = None
  ∧ (∃ item, item_of r = Some item) ∧ close_res r = None.

(** One resumption of the [i]-th [_parse_item] coroutine, from the [await]
    it is suspended at to the next one (or to its end). *)
Definition _parse_item (self : MacParser) (i : nat) (t : Task) (s : Loop)
  : option Loop :=
  let run := context self i (item_link t) in
  match stage t with
  | Created => Some (acquire i t s)
  | Waiting => None
  | Entered =>
      let s := emit (EvNewPage i) s in
      Some match new_page_res run with
           | None => set_task i (set_page PageOpen (set_stage AtGoto t)) s
           | Some e => fail i t e s
           end
  | AtGoto =>
      let s := emit (EvGoto i (item_link t)) s in
      Some match goto_res run with
           | None => set_task i (set_stage AtContent t) s
           | Some e => fail i t e s
           end
  | AtContent =>
      let s := emit (EvContent i) s in
      Some match content_res run with
           | Ok page_content =>
               match BeautifulSoup page_content with
               | Ok soup =>
                   set_task i (set_stage (AtClose (extract_item soup)) t) s
               | Raise e => fail i t e s
               end
           | Raise e => fail i t e s
           end
  | AtClose item =>
      let s := emit (EvClose i) s in
      Some match close_res run with
           | None =>
               let t := set_page PageClosed t in
               let s := emit (EvPrint (name item)) s in
               match print_res run (item_parsed (name item)) with
               | None => release (set_task i (set_stage (Returned item) t) s)
               | Some e => fail i t e s
               end
           | Some e => fail i (set_page PageCloseRaised t) e s
           end
  | Returned _ | Raised _ => None
  end.

(** The event loop resumes task [i]; [None] when it cannot be resumed. *)
Definition step (self : MacParser) (i : nat) (s : Loop) : option Loop :=
  t ← tasks s !! i; _parse_item self i t s.

(** The loop resumes tasks in the order [sched]; a pick that cannot run
    is skipped. *)
Definition run (self : MacParser) (sched : list nat) (s : Loop) : Loop :=
  foldl (λ s i, default s (step self i s)) s sched.

(** The arguments of [gather]: one coroutine per link, in listing order;
    the first link without [href], or with one [urljoin] rejects, raises. *)
Fixpoint item_links (links : list Tag) : result (list str) :=
  match links with
  | [] => Ok []
  | link_item :: rest =>
      match attrs link_item !! lit "href" with
      | None => Raise (KeyError (lit "href"))
      | Some href =>
          match urljoin BASE_URL href with
          | Raise e => Raise e
          | Ok url =>
              match item_links rest with
              | Ok urls => Ok (url :: urls)
              | Raise e => Raise e
              end
          end
      end
  end.

(** The nodes [fetch_menu] takes for item links. *)
Definition menu_nodes (self : MacParser) : result (list Tag) :=
  match urljoin BASE_URL (lit "/ua/uk-ua/eat/fullmenu.html") with
  | Raise e => Raise e
  | Ok url =>
      match session self url with
      | Raise e => Raise e
      | Ok main_menu =>
          match BeautifulSoup main_menu with
          | Raise e => Raise e
          | Ok soup =>
              Ok (find_all soup (lit "class") (lit "cmp-category__item-link"))
          end
      end
  end.

(** The loop as [gather] finds it: every coroutine created, none started,
    the semaphore fresh. *)
Definition gather (self : MacParser) (urls : list str) : Loop :=
  {| tasks := (λ url, mkTask url Created NoPage) <$> urls;
     semaphore := mkSemaphore (max_sim_pages self) [];
     outer := None; log := [] |}.

(** [fetch_menu] under the schedule [sched] of the event loop: what the
    caller gets, and what was done to pages. *)
Definition fetch_menu (self : MacParser) (sched : list nat)
  : Outcome * list Event :=
  match menu_nodes self with
  | Raise e => (Raises e, [])
  | Ok links =>
      match item_links links with
      | Raise e => (Raises e, [])
      | Ok urls =>
          let s := run self sched (gather self urls) in
          (gather_outcome s, log s)
      end
  end.
End Crawler.

(** ** Invariants of the event loop *)

(** The semaphore and the tasks agree: slots taken and slots free add up to
    the limit, the queue holds exactly the suspended tasks, once each, and
    nobody queues while a slot is free. *)
Record sem_inv (limit : nat) (ts : list Task) (sem : Semaphore) : Prop := mkSemInv {
  inv_slots : active ts + value sem = limit;
  inv_queue : ∀ j, j ∈ waiters sem ↔ ∃ t, ts !! j = Some t ∧ stage t = Waiting;
  inv_nodup : NoDup (waiters sem);
  inv_locked : waiters sem ≠ [] → value sem = 0
}.

(** [page.goto] has been called for the task. *)
Definition navigated (r : PageRun) (t : Task) : bool :=
  match stage t with
  | AtContent | AtClose _ | Returned _ => true
  | Raised _ => bool_decide (new_page_res r = None)
  | Created | Waiting | Entered | AtGoto => false
  end.

(** What the resumption of task [i] leaves of the other tasks: untouched,
    or woken from the queue with the slot just released. *)
Definition others_kept (i : nat) (s s' : Loop) : Prop :=
  ∀ k, k ≠ i →
    tasks s' !! k = tasks s !! k
    ∨ ∃ u, tasks s !! k = Some u ∧ stage u = Waiting
           ∧ tasks s' !! k = Some (set_stage Entered u).

Section Invariants.
Context `{Document Soup}.
Variable BeautifulSoup : str → result Soup.
Variable self : MacParser.

Local Abbreviation item_of := (item_of BeautifulSoup).
Local Abbreviation script_failure := (script_failure BeautifulSoup).
Local Abbreviation page_at_exit := (page_at_exit BeautifulSoup).

(** A task's stage and page agree with what the world has answered to
    its calls so far. *)
Definition task_wf (i : nat) (t : Task) : Prop :=
  let r := context self i (item_link t) in
  match stage t with
  | Created | Waiting | Entered => page t = NoPage
  | AtGoto => new_page_res r = None ∧ page t = PageOpen
  | AtContent =>
      new_page_res r = None ∧ goto_res r = None ∧ page t = PageOpen
  | AtClose item =>
      new_page_res r = None ∧ goto_res r = None ∧ item_of r = Some item
      ∧ page t = PageOpen
  | Returned item =>
      script_failure r = None ∧ item_of r = Some item ∧ page t = PageClosed
  | Raised e => script_failure r = Some e ∧ page t = page_at_exit r
  end.

Record loop_inv (urls : list str) (s : Loop) : Prop := mkInv {
  inv_links : item_link <$> tasks s = urls;
  inv_tasks : ∀ i t, tasks s !! i = Some t → task_wf i t;
  inv_sem : sem_inv (max_sim_pages self) (tasks s) (semaphore s);
  inv_outer_some : ∀ e, outer s = Some e →
    ∃ i t, tasks s !! i = Some t ∧ stage t = Raised e;
  inv_outer_none : outer s = None →
    ∀ i t e, tasks s !! i = Some t → stage t ≠ Raised e;
  inv_nav_nodup : NoDup (navigations (log s));
  inv_nav : ∀ i url, (i, url) ∈ navigations (log s) ↔
    ∃ t, tasks s !! i = Some t ∧ item_link t = url ∧
         navigated (context self i url) t = true
}.

(** The menu answers the links position by position: its [i]-th item is
    the one extracted from the page of the [i]-th URL. *)
Definition positional (urls : list str) (menu : list MenuItem) : Prop :=
  length menu = length urls ∧
  ∀ i url, urls !! i = Some url →
    ∃ page_content soup,
      content_res (context self i url) = Ok page_content
      ∧ BeautifulSoup page_content = Ok soup
      ∧ menu !! i = Some (extract_item soup).

(** Nothing raises in the invocation of any link: no call on its page,
    nor the parse of its content, nor the [print] of its line. *)
Definition all_pages_load (urls : list str) : Prop :=
  ∀ i url, urls !! i = Some url → script_failure (context self i url) = None.
End Invariants.

(** ** The properties of the specification, as predicates *)

(** The task has left [_parse_item], by [return] or by an exception. *)
Definition ended (t : Task) : bool :=
  match stage t with
  | Returned _ | Raised _ => true
  | _ => false
  end.

(** How many running invocations have their page open. *)
Definition working_pages (ts : list Task) : nat :=
  sum_list_with
    (λ t, Nat.b2n (negb (ended t) && bool_decide (page t = PageOpen))) ts.

(** The same parser with another limit on simultaneous pages. *)
Definition with_limit (k : nat) (self : MacParser) : MacParser :=
  {| session := session self; context := context self; max_sim_pages := k |}.

Section Specification.
Context `{Document Soup}.
Variable BeautifulSoup : str → result Soup.
Variable urljoin : str → str → result str.

(** Every invocation that has ended has given its page back: no ended
    task is left with an open page. *)
Definition closes_page_on_every_exit (self : MacParser) (urls : list str) : Prop :=
  ∀ sched i t,
    tasks (run BeautifulSoup self sched (gather self urls)) !! i = Some t →
    ended t = true → page t ≠ PageOpen.

(** Some schedule makes [fetch_menu] return [menu]. *)
Definition can_return (self : MacParser) (menu : list MenuItem) : Prop :=
  ∃ sched, (fetch_menu BeautifulSoup urljoin self sched).1 = Returns menu.

(** Whatever the schedule, [fetch_menu] returns nothing but [menu], and
    the schedule can be carried on until it does. *)
Definition must_return (self : MacParser) (menu : list MenuItem) : Prop :=
  ∀ sched,
    (∀ menu', (fetch_menu BeautifulSoup urljoin self sched).1 = Returns menu' →
              menu' = menu)
    ∧ ∃ ext, (fetch_menu BeautifulSoup urljoin self (sched ++ ext)).1
             = Returns menu.

(** Whenever a node taken for an item link has no [href], [fetch_menu]
    raises [KeyError], whatever the schedule. *)
Definition missing_href_gives_KeyError (self : MacParser) : Prop :=
  ∀ links,
    menu_nodes BeautifulSoup urljoin self = Ok links →
    (∃ link, link ∈ links ∧ attrs link !! lit "href" = None) →
    ∀ sched, (fetch_menu BeautifulSoup urljoin self sched).1
             = Raises (KeyError (lit "href")).

(** The link has an [href] that [urljoin] accepts. *)
Definition joins (link : Tag) : Prop :=
  ∃ href url, attrs link !! lit "href" = Some href
              ∧ urljoin BASE_URL href = Ok url.

(** [link] is the first of [links] without [href], and the links before
    it all have one that [urljoin] accepts. *)
Definition first_without_href (links before : list Tag) (link : Tag)
    (after : list Tag) : Prop :=
  links = before ++ link :: after
  ∧ attrs link !! lit "href" = None
  ∧ Forall joins before.

(** [e] is the exception of the first link of [links] that fails: a
    [KeyError] for want of an [href], or what [urljoin] raises for it. *)
Definition first_failure (links : list Tag) (e : exn) : Prop :=
  ∃ before link after,
    links = before ++ link :: after
    ∧ Forall joins before
    ∧ ((attrs link !! lit "href" = None ∧ e = KeyError (lit "href"))
       ∨ ∃ href, attrs link !! lit "href" = Some href
                 ∧ urljoin BASE_URL href = Raise e).
End Specification.

(** ** [json.dump] as [main] calls it *)

(** A hexadecimal digit, in lower case. *)
Definition hex_digit (n : N) : N := (if n <? 10 then 48 + n else 87 + n)%N.

(** The replacement [py_encode_basestring] makes for one character: the
    table [ESCAPE_DCT] for the backslash, the quote and the control
    characters, the character itself otherwise. *)
Definition escape (c : N) : str :=
  (if c =? 92 then [92; 92]
   else if c =? 34 then [92; 34]
   else if c =? 8 then [92; 98]
   else if c =? 12 then [92; 102]
   else if c =? 10 then [92; 110]
   else if c =? 13 then [92; 114]
   else if c =? 9 then [92; 116]
   else if c <? 32 then [92; 117; 48; 48; hex_digit (c / 16); hex_digit (c mod 16)]
   else [c])%N.

(** [encode_basestring], the string encoder under [ensure_ascii=False]. *)
Definition py_encode_basestring (s : str) : str :=
  [34%N] ++ (s ≫= escape) ++ [34%N].

(** [item.__dict__]: the fields by name, in the order of the dataclass. *)
Definition __dict__ (item : MenuItem) : list (str * str) :=
  [(lit "name", name item);
   (lit "description", description item);
   (lit "calories", calories item);
   (lit "fats", fats item);
   (lit "carbs", carbs item);
   (lit "proteins", proteins item);
   (lit "unsaturated_fats", unsaturated_fats item);
   (lit "sugar", sugar item);
   (lit "salt", salt item);
   (lit "portion", portion item)].

(** A line break followed by the indentation of [level], at [indent=4]. *)
Definition newline_indent (level : nat) : str :=
  [10%N] ++ replicate (4 * level) 32%N.

(** [_iterencode_dict] on a dictionary of strings, its chunks joined. *)
Definition _iterencode_dict (dct : list (str * str)) (level : nat) : str :=
  match dct with
  | [] => lit "{}"
  | _ =>
      lit "{" ++ newline_indent (S level)
      ++ join (lit "," ++ newline_indent (S level))
           ((λ kv, py_encode_basestring kv.1 ++ lit ": "
                   ++ py_encode_basestring kv.2) <$> dct)
      ++ newline_indent level ++ lit "}"
  end.

(** [_iterencode_list] on a list of such dictionaries. *)
Definition _iterencode_list (lst : list (list (str * str))) (level : nat) : str :=
  match lst with
  | [] => lit "[]"
  | _ =>
      lit "[" ++ newline_indent (S level)
      ++ join (lit "," ++ newline_indent (S level))
           ((λ dct, _iterencode_dict dct (S level)) <$> lst)
      ++ newline_indent level ++ lit "]"
  end.

(** The text [json.dump([item.__dict__ for item in menu], file, indent=4,
    ensure_ascii=False)] writes to [file]. *)
Definition dump (menu : list MenuItem) : str :=
  _iterencode_list (__dict__ <$> menu) 0.

(** A surrogate code point, which UTF-8 cannot encode. *)
Definition surrogate (c : N) : bool := ((55296 <=? c) && (c <=? 57343))%N.

(** The text can be written to a file opened with [encoding='utf-8']. *)
Definition encodable (s : str) : bool := forallb (λ c, negb (surrogate c)) s.

(** Reading a JSON string literal back: the value of a hexadecimal digit,
    and the text up to the closing quote with its escapes undone, together
    with what follows the literal. *)
Definition unhex (c : N) : option N :=
  (if (48 <=? c) && (c <=? 57) then Some (c - 48)
   else if (97 <=? c) && (c <=? 102) then Some (c - 87)
   else if (65 <=? c) && (c <=? 70) then Some (c - 55)
   else None)%N.

Fixpoint scan_body (s : str) : option (str * str) :=
  match s with
  | [] => None
  | c :: rest =>
      if (c =? 34)%N then Some ([], rest)
      else if (c =? 92)%N then
        match rest with
        | e :: rest' =>
            let plain (d : N) := (λ r, (d :: r.1, r.2)) <$> scan_body rest' in
            if (e =? 34)%N then plain 34%N
            else if (e =? 92)%N then plain 92%N
            else if (e =? 47)%N then plain 47%N
            else if (e =? 98)%N then plain 8%N
            else if (e =? 102)%N then plain 12%N
            else if (e =? 110)%N then plain 10%N
            else if (e =? 114)%N then plain 13%N
            else if (e =? 116)%N then plain 9%N
            else if (e =? 117)%N then
              match rest' with
              | h3 :: h2 :: h1 :: h0 :: rest'' =>
                  a ← unhex h3; b ← unhex h2; c1 ← unhex h1; d ← unhex h0;
                  r ← scan_body rest'';
                  Some ((4096 * a + 256 * b + 16 * c1 + d)%N :: r.1, r.2)
              | _ => None
              end
            else None
        | [] => None
        end
      else if (c <? 32)%N then None
      else (λ r, (c :: r.1, r.2)) <$> scan_body rest
  end.

(** A string literal at the head of [s]: its text, and what follows it. *)
Definition read_literal (s : str) : option (str * str) :=
  match s with
  | 34%N :: rest => scan_body rest
  | _ => None
  end.

(** The separators of the outermost list. *)
Definition comma : str := lit "," ++ newline_indent 1.
Definition closing : str := newline_indent 0 ++ lit "]".

(** ** [main] and [MacParser.create] *)

(** The Playwright driver. *)
Inductive Driver := NotStarted | Started | Stopped.

(** The file [data.json]: not opened, opened for writing and left with
    a part of the document, or holding the text written. *)
Inductive File := Untouched | Incomplete | Written (text : str).

(** What the process has done to the world around it. *)
Record Process := mkProcess {
  playwright : Driver;
  session_entered : bool;
  browser_launched : bool;
  data_json : File
}.

Inductive Error :=
| Exn (e : exn)
| OSError (msg : str).

(** How a run of [main] stands: the schedule given has not brought it to
    its end, it ended by an exception, or it returned. *)
Inductive Exit :=
| Unfinished
| Crashed (e : Error)
| Finished.

(** What the world answers: to the start and stop of Playwright, to the
    launch of the browser and the creation of its context, to requests and
    page calls, and to the opening of [data.json] for writing. *)
Record Outside := mkOutside {
  start_res : option exn;
  launch_res : option exn;
  new_context_res : option exn;
  get_res : str → result str;
  page_runs : nat → str → PageRun;
  stop_res : option exn;
  open_res : option str
}.

(** [MacParser.create(playwright, max_sim_pages, **browser_options)]; the
    keyword's default is 5. *)
Definition create (out : Outside) (max_sim_pages : nat) (p : Process)
  : result MacParser * Process :=
  let p := {| playwright := playwright p; session_entered := true;
              browser_launched := browser_launched p;
              data_json := data_json p |} in
  match launch_res out with
  | Some e => (Raise e, p)
  | None =>
      let p := {| playwright := playwright p;
                  session_entered := session_entered p;
                  browser_launched := true; data_json := data_json p |} in
      match new_context_res out with
      | Some e => (Raise e, p)
      | None =>
          (Ok {| session := get_res out; context := page_runs out;
                 max_sim_pages := max_sim_pages |}, p)
      end
  end.

Definition set_playwright (d : Driver) (p : Process) : Process :=
  {| playwright := d; session_entered := session_entered p;
     browser_launched := browser_launched p; data_json := data_json p |}.

Definition set_data_json (f : File) (p : Process) : Process :=
  {| playwright := playwright p; session_entered := session_entered p;
     browser_launched := browser_launched p; data_json := f |}.

Section Main.
Context `{Document Soup}.
Variable BeautifulSoup : str → result Soup.
Variable urljoin : str → str → result str.

(** [main] under the schedule [sched] of the event loop. *)
Definition main (out : Outside) (sched : list nat) : Exit * Process :=
  let p := mkProcess NotStarted false false Untouched in
  match start_res out with
  | Some e => (Crashed (Exn e), p)
  | None =>
      let p := set_playwright Started p in
      match create out 6 p with
      | (Raise e, p) => (Crashed (Exn e), p)
      | (Ok parser, p) =>
          match (fetch_menu BeautifulSoup urljoin parser sched).1 with
          | Pending => (Unfinished, p)
          | Raises e => (Crashed (Exn e), p)
          | Returns menu =>
              match stop_res out with
              | Some e => (Crashed (Exn e), p)
              | None =>
                  let p := set_playwright Stopped p in
                  match open_res out with
                  | Some msg => (Crashed (OSError msg), p)
                  | None =>
                      let text := dump menu in
                      if encodable text
                      then (Finished, set_data_json (Written text) p)
                      else (Crashed (Exn UnicodeEncodeError),
                            set_data_json Incomplete p)
                  end
              end
          end
      end
  end.
End Main.

(** ** A small concrete world, to run the definitions on *)

Module Demo.
(** A document given by the answers to its queries. *)
Record doc := mkDoc {
  doc_select : list (str * list Tag);
  doc_links : list Tag
}.

Definition lookup_sel (sel : str) (tbl : list (str * list Tag)) : list Tag :=
  match list_find (λ p, p.1 = sel) tbl with
  | Some (_, (_, r)) => r
  | None => []
  end.

#[global] Instance doc_document : Document doc := {|
  select d sel := lookup_sel sel (doc_select d);
  find_all d _ _ := doc_links d
|}.

Definition span (s : str) : Tag := mkTag ∅ s.
Definition anchor (href : str) : Tag := mkTag {[ lit "href" := href ]} [].

(** Markup stands for itself: ["listing"], ["broken"] and ["malformed"]
    are listing pages, any other markup is an item page whose title is the
    markup and which has three calorie nodes. *)
Definition parse (markup : str) : doc :=
  if bool_decide (markup = lit "listing") then
    mkDoc [] [anchor (lit "/a"); anchor (lit "/b"); anchor (lit "/a")]
  else if bool_decide (markup = lit "broken") then
    mkDoc [] [anchor (lit "/a"); mkTag ∅ []; anchor (lit "/b")]
  else if bool_decide (markup = lit "malformed") then
    mkDoc [] [anchor (lit "//["); mkTag ∅ []]
  else
    mkDoc [(name_selector, [span (lit "  " ++ markup ++ lit " "); span (lit "other")]);
           (calories_selector, [span (lit "10"); span (lit " 20 "); span (lit "30")]);
           (fats_selector, [span (lit "10"); span (lit "20"); span (lit "30")])] [].

(** A parser that rejects one markup, a marked section with an unknown
    keyword, and takes every other. *)
Definition html_parser (markup : str) : result doc :=
  if bool_decide (markup = lit "<![x]>")
  then Raise (ParserRejectedMarkup (lit "unknown status keyword"))
  else Ok (parse markup).

(** [urljoin] on the references used here: an absolute path is appended
    to the base, which has none, and the unclosed bracket of ["//["] is
    rejected as an invalid IPv6 host. *)
Definition urljoin (base url : str) : result str :=
  if bool_decide (url = lit "//[")
  then Raise (ValueError (lit "Invalid IPv6 URL"))
  else Ok (base ++ url).

(** The standard output, in UTF-8: a line with a surrogate is refused. *)
Definition stdout (line : str) : option exn :=
  if encodable line then None else Some UnicodeEncodeError.

Definition good (markup : str) : PageRun :=
  mkPageRun None None (Ok markup) None stdout.
Definition unreachable : PageRun :=
  mkPageRun None (Some (PlaywrightError (lit "net::ERR"))) (Ok []) None stdout.

(** Every page loads, with its URL for markup. *)
Definition steady (i : nat) (url : str) : PageRun := good url.
(** The same, but [/b] cannot be reached. *)
Definition flaky (i : nat) (url : str) : PageRun :=
  if bool_decide (url = BASE_URL ++ lit "/b") then unreachable else good url.

Definition parser (ctx : nat → str → PageRun) (listing : str) (k : nat) : MacParser :=
  mkMacParser (λ _, Ok listing) ctx k.

Definition crawl ctx listing k sched :=
  fetch_menu html_parser urljoin (parser ctx listing k) sched.

Definition shop (k : nat) : MacParser := parser steady (lit "listing") k.
Definition flaky_shop : MacParser := parser flaky (lit "listing") 2.

(** The listing with three links, the first and the last to the same
    page, and what is expected of the crawl. *)
Definition links : list Tag := [anchor (lit "/a"); anchor (lit "/b"); anchor (lit "/a")].
Definition urls : list str :=
  [BASE_URL ++ lit "/a"; BASE_URL ++ lit "/b"; BASE_URL ++ lit "/a"].

Definition ten_twenty_thirty : str :=
  lit "10" ++ newline ++ lit "20" ++ newline ++ lit "30".
Definition item (url : str) : MenuItem :=
  mkMenuItem url [] ten_twenty_thirty ten_twenty_thirty [] [] [] [] [] [].
Definition menu : list MenuItem := item <$> urls.

(** The loop resumes the three tasks in turn, ten times over. *)
Definition round_robin : list nat := mjoin (replicate 10 [0; 1; 2]).

(** The second task once its navigation has failed. *)
Definition net_err : exn := PlaywrightError (lit "net::ERR").
Definition failed : Task := mkTask (BASE_URL ++ lit "/b") (Raised net_err) PageOpen.

(** The world of [main]: nothing raises, the listing has the three links. *)
Definition world (pages : nat → str → PageRun) : Outside :=
  mkOutside None None None (λ _, Ok (lit "listing")) pages None None.

(** Every page loads, with a lone surrogate for markup; and the same
    with a standard output that takes every line. *)
Definition odd (i : nat) (url : str) : PageRun := good [55296%N].
Definition odd_lenient (i : nat) (url : str) : PageRun :=
  mkPageRun None None (Ok [55296%N]) None (λ _, None).

(** Every page loads, but the second has markup the parser rejects. *)
Definition garbled (i : nat) (url : str) : PageRun :=
  if bool_decide (i = 1) then good (lit "<![x]>") else good url.
End Demo.

(** * Properties *)

(** ** Strings and field extraction *)

Lemma lstrip_spec s :
  ∃ l, s = l ++ lstrip s ∧ whitespace l
       ∧ ∀ c, head (lstrip s) = Some c → isspace c = false.
Proof.
  induction s as [|c s (l & Heq & Hl & Hhead)]; simpl.
  - exists []. split_and!; [done|by apply Forall_nil|done].
  - destruct (isspace c) eqn:Hc.
    + exists (c :: l). split_and!; [by rewrite Heq at 1|by apply Forall_cons|done].
    + exists []. split_and!; [done|by apply Forall_nil|].
      intros c' ?. by simplify_eq/=.
Qed.

Lemma rstrip_spec s :
  ∃ r, s = rstrip s ++ r ∧ whitespace r
       ∧ ∀ c, last (rstrip s) = Some c → isspace c = false.
Proof.
  destruct (lstrip_spec (reverse s)) as (l & Heq & Hl & Hhead).
  exists (reverse l). unfold rstrip. split_and!.
  - rewrite <-reverse_app. rewrite <-Heq. by rewrite reverse_involutive.
  - by apply Forall_reverse.
  - intros c. rewrite last_reverse. apply Hhead.
Qed.

Lemma strip_spec s : stripped_of s (strip s).
Proof.
  destruct (lstrip_spec s) as (l & Heq & Hl & Hhead).
  destruct (rstrip_spec (lstrip s)) as (r & Heq' & Hr & Hlast).
  exists l, r. unfold strip. split_and!; try done.
  - by rewrite <-Heq'.
  - split; [|done]. intros c Hc. apply Hhead. rewrite Heq'.
    destruct (rstrip (lstrip s)); by simplify_eq/=.
Qed.

Lemma strip_whitespace s : whitespace s → strip s = [].
Proof.
  intros Hs. assert (lstrip s = []) as Hl.
  { induction Hs as [|c s Hc _ IH]; simpl; [done|]. by rewrite Hc. }
  unfold strip. by rewrite Hl.
Qed.

Lemma strip_trimmed s : trimmed s → strip s = s.
Proof.
  intros [Hhead Hlast].
  assert (∀ u : str, (∀ c, head u = Some c → isspace c = false) → lstrip u = u) as Hl.
  { intros [|c u] Hu; simpl; [done|]. by rewrite (Hu c). }
  unfold strip, rstrip. rewrite (Hl s Hhead), Hl; [apply reverse_involutive|].
  intros c. rewrite head_reverse. apply Hlast.
Qed.

Section Fields.
Context `{Document Soup}.

Lemma hidden_fields_extract (soup : Soup) field sel :
  (field, sel) ∈ hidden_fields →
  field (extract_item soup) = _take_hidden soup sel.
Proof.
  unfold hidden_fields. rewrite !elem_of_cons, elem_of_nil.
  intros Hin. repeat (destruct Hin as [?|Hin]; [by simplify_eq|]). done.
Qed.

Lemma string_opt_fields_extract (soup : Soup) field sel :
  (field, sel) ∈ string_opt_fields →
  field (extract_item soup) = _take_string_opt soup sel.
Proof.
  unfold string_opt_fields. rewrite !elem_of_cons, elem_of_nil.
  intros Hin. repeat (destruct Hin as [?|Hin]; [by simplify_eq|]). done.
Qed.

(** C5: every joined-mode field (the eight nutrition fields, read by
    [_take_hidden]) is the stripped texts of the matching nodes, in their
    order, joined with a newline: each piece is its node's text without
    leading and trailing whitespace, no match gives the empty string, and
    three matches with texts "10", "20" and "30" give "10\n20\n30". *)
Theorem C5_joined_fields (soup : Soup) field sel :
  (field, sel) ∈ hidden_fields →
  let value := field (extract_item soup) in
  let pieces := (λ tag, strip (text tag)) <$> select soup sel in
  value = join newline pieces
  ∧ Forall2 stripped_of (text <$> select soup sel) pieces
  ∧ (select soup sel = [] → value = [])
  ∧ (∀ t1 t2 t3, select soup sel = [t1; t2; t3] →
       text t1 = lit "10" → text t2 = lit "20" → text t3 = lit "30" →
       value = lit "10" ++ newline ++ lit "20" ++ newline ++ lit "30").
Proof.
  intros Hin. simpl. rewrite (hidden_fields_extract soup field sel Hin).
  unfold _take_hidden. split_and!.
  - done.
  - induction (select soup sel) as [|tag tags IH]; simpl; constructor; [|done].
    apply strip_spec.
  - by intros ->.
  - intros t1 t2 t3 -> H1 H2 H3. simpl. by rewrite H1, H2, H3.
Qed.

(** C6: every single-mode field (name and description, read by
    [_take_string_opt]) is the text of the first matching node without its
    leading and trailing whitespace, and the empty string when no node
    matches. *)
Theorem C6_single_fields (soup : Soup) field sel :
  (field, sel) ∈ string_opt_fields →
  match select soup sel with
  | first :: _ =>
      field (extract_item soup) = strip (text first)
      ∧ stripped_of (text first) (field (extract_item soup))
  | [] => field (extract_item soup) = []
  end.
Proof.
  intros Hin. rewrite (string_opt_fields_extract soup field sel Hin).
  unfold _take_string_opt, select_one.
  destruct (select soup sel) as [|first rest]; simpl; [done|].
  split; [done|apply strip_spec].
Qed.
End Fields.

(** ** Lists updated in place *)

Lemma sum_list_with_insert {A} (f : A → nat) (l : list A) i x y :
  l !! i = Some x →
  sum_list_with f (<[i:=y]> l) + f x = sum_list_with f l + f y.
Proof.
  revert i. induction l as [|a l IH]; intros [|i] Hi; simplify_eq/=; [lia|].
  specialize (IH _ Hi). lia.
Qed.

Lemma alter_as_insert {A} (f : A → A) (l : list A) i x :
  l !! i = Some x → alter f i l = <[i:=f x]> l.
Proof.
  revert i. induction l as [|a l IH]; intros [|i] Hi; simplify_eq/=; [done|].
  by rewrite <-(IH _ Hi).
Qed.

Lemma sum_list_with_pos {A} (f : A → nat) (l : list A) :
  0 < sum_list_with f l → ∃ i x, l !! i = Some x ∧ 0 < f x.
Proof.
  induction l as [|a l IH]; simpl; [lia|]. intros Hpos.
  destruct (decide (0 < f a)) as [Ha|Ha].
  - by exists 0, a.
  - destruct IH as (i & x & Hi & Hx); [lia|]. by exists (S i), x.
Qed.

Lemma sum_list_with_mono {A} (f g : A → nat) (l : list A) :
  (∀ k x, l !! k = Some x → f x ≤ g x) →
  sum_list_with f l ≤ sum_list_with g l.
Proof.
  induction l as [|a l IH]; intros Hle; simpl; [done|].
  assert (f a ≤ g a) by (by apply (Hle 0)).
  assert (sum_list_with f l ≤ sum_list_with g l); [|lia].
  apply IH. intros k. apply (Hle (S k)).
Qed.

(** ** The semaphore invariant *)

Lemma holds_slot_not_waiting t : holds_slot t = true → stage t ≠ Waiting.
Proof. unfold holds_slot. by destruct (stage t). Qed.

Lemma lookup_insert_waiting (ts : list Task) i j t t' :
  ts !! i = Some t → stage t ≠ Waiting → stage t' ≠ Waiting →
  (∃ u, <[i:=t']> ts !! j = Some u ∧ stage u = Waiting) ↔
  (∃ u, ts !! j = Some u ∧ stage u = Waiting).
Proof.
  intros Hi Ht Ht'. destruct (decide (i = j)) as [->|Hne].
  - rewrite list_lookup_insert_eq by eauto using lookup_lt_Some.
    split; intros (u & ? & ?); simplify_eq.
  - by rewrite list_lookup_insert_ne.
Qed.

Lemma sem_inv_advance limit ts sem i t t' :
  sem_inv limit ts sem → ts !! i = Some t →
  holds_slot t = true → holds_slot t' = true →
  sem_inv limit (<[i:=t']> ts) sem.
Proof.
  intros [Hslots Hqueue Hnodup Hlocked] Hi Ht Ht'. split; try done.
  - pose proof (sum_list_with_insert (λ t, Nat.b2n (holds_slot t)) ts i t t' Hi) as Hsum.
    simpl in Hsum. rewrite Ht, Ht' in Hsum. unfold active in *. lia.
  - intros j. rewrite Hqueue.
    symmetry. apply (lookup_insert_waiting ts i j t t'); auto using holds_slot_not_waiting.
Qed.

Lemma sem_inv_acquire limit i t s :
  sem_inv limit (tasks s) (semaphore s) → tasks s !! i = Some t →
  stage t = Created →
  sem_inv limit (tasks (acquire i t s)) (semaphore (acquire i t s)).
Proof.
  intros [Hslots Hqueue Hnodup Hlocked] Hi Ht.
  pose proof (sum_list_with_insert (λ t, Nat.b2n (holds_slot t)) (tasks s) i t) as Hsum.
  assert (holds_slot t = false) as Hfree by (unfold holds_slot; by rewrite Ht).
  assert (i ∉ waiters (semaphore s)) as Hout.
  { rewrite Hqueue. intros (u & ? & ?). simplify_eq. congruence. }
  unfold acquire. case_bool_decide as Hfast; simpl.
  - destruct Hfast as [Hpos Hempty]. split; simpl; try done.
    + specialize (Hsum (set_stage Entered t) Hi). simpl in Hsum.
      rewrite Hfree in Hsum. unfold active in *. simpl in Hsum. lia.
    + intros j. rewrite Hqueue. symmetry.
      apply (lookup_insert_waiting _ i j t); [done|congruence|done].
  - split; simpl.
    + specialize (Hsum (set_stage Waiting t) Hi). simpl in Hsum.
      rewrite Hfree in Hsum. unfold active in *. simpl in Hsum. lia.
    + intros j. rewrite elem_of_app, list_elem_of_singleton, Hqueue.
      destruct (decide (i = j)) as [->|Hne].
      * rewrite list_lookup_insert_eq by eauto using lookup_lt_Some.
        split; [eauto|]. by right.
      * rewrite list_lookup_insert_ne by done. split; [|tauto].
        intros [?|?]; [done|congruence].
    + apply NoDup_app. split_and!; [done| |apply NoDup_singleton].
      intros x Hx ->%list_elem_of_singleton. done.
    + intros _. destruct (waiters (semaphore s)) as [|w ws] eqn:Hw.
      * destruct (value (semaphore s)); [done|]. destruct Hfast. split; [lia|done].
      * by apply Hlocked.
Qed.

Lemma sem_inv_leave limit i t t' s :
  sem_inv limit (tasks s) (semaphore s) → tasks s !! i = Some t →
  holds_slot t = true → holds_slot t' = false → stage t' ≠ Waiting →
  let s' := release (set_task i t' s) in
  sem_inv limit (tasks s') (semaphore s').
Proof.
  intros [Hslots Hqueue Hnodup Hlocked] Hi Ht Ht' Hnw. simpl.
  pose proof (sum_list_with_insert (λ t, Nat.b2n (holds_slot t)) (tasks s) i t t' Hi) as Hsum.
  simpl in Hsum. rewrite Ht, Ht' in Hsum. simpl in Hsum.
  assert (∀ j, (∃ u, <[i:=t']> (tasks s) !! j = Some u ∧ stage u = Waiting) ↔
               j ∈ waiters (semaphore s)) as Hqueue'.
  { intros j. rewrite Hqueue.
    apply (lookup_insert_waiting _ i j t); auto using holds_slot_not_waiting. }
  unfold release. simpl. destruct (waiters (semaphore s)) as [|w ws] eqn:Hw; simpl.
  - split; simpl.
    + unfold active in *. lia.
    + intros j. by rewrite Hqueue'.
    + apply NoDup_nil_2.
    + done.
  - destruct (proj2 (Hqueue' w)) as (u & Hu & Hwait); [left|].
    rewrite (alter_as_insert _ _ _ _ Hu).
    pose proof (sum_list_with_insert (λ t, Nat.b2n (holds_slot t)) _ w u
                  (set_stage Entered u) Hu) as Hsum'.
    simpl in Hsum'. unfold holds_slot in Hsum' at 2. rewrite Hwait in Hsum'.
    simpl in Hsum'. apply NoDup_cons in Hnodup as [Hfresh Hnodup].
    split; simpl.
    + unfold active in *. lia.
    + intros j. destruct (decide (w = j)) as [->|Hne].
      * rewrite list_lookup_insert_eq by eauto using lookup_lt_Some.
        split; [done|]. intros (? & ? & ?). simplify_eq.
      * rewrite list_lookup_insert_ne by done. rewrite Hqueue', elem_of_cons.
        split; [by right|]. intros [?|?]; [congruence|done].
    + done.
    + intros _. by apply Hlocked.
Qed.

Lemma sum_list_with_zero {A} (f : A → nat) (l : list A) :
  (∀ k x, l !! k = Some x → f x = 0) → sum_list_with f l = 0.
Proof.
  induction l as [|a l IH]; intros Hz; simpl; [done|].
  rewrite (Hz 0 a eq_refl), IH; [done|]. intros k. apply (Hz (S k)).
Qed.

Lemma sum_list_with_le {A} (f : A → nat) (l l' : list A) :
  length l = length l' →
  (∀ k y y', l !! k = Some y → l' !! k = Some y' → f y' ≤ f y) →
  sum_list_with f l' ≤ sum_list_with f l.
Proof.
  revert l'. induction l as [|a l IH]; intros [|a' l'] Hlen Hle; simplify_eq/=; [done|].
  assert (f a' ≤ f a) by (by eapply (Hle 0)).
  assert (sum_list_with f l' ≤ sum_list_with f l); [|lia].
  apply IH; [done|]. intros k. apply (Hle (S k)).
Qed.

Lemma sum_list_with_lt {A} (f : A → nat) (l l' : list A) i x x' :
  length l = length l' →
  (∀ k y y', l !! k = Some y → l' !! k = Some y' → f y' ≤ f y) →
  l !! i = Some x → l' !! i = Some x' → f x' < f x →
  sum_list_with f l' < sum_list_with f l.
Proof.
  revert l' i. induction l as [|a l IH]; intros [|a' l'] i Hlen Hle Hi Hi' Hlt;
    simplify_eq/=.
  assert (∀ k y y', l !! k = Some y → l' !! k = Some y' → f y' ≤ f y) as Hle'
    by (intros k; apply (Hle (S k))).
  destruct i as [|i]; simplify_eq/=.
  - pose proof (sum_list_with_le f l l' Hlen Hle'). lia.
  - assert (f a' ≤ f a) by (by eapply (Hle 0)).
    assert (sum_list_with f l' < sum_list_with f l); [|lia].
    by eapply IH.
Qed.

(** ** What one resumption does *)

Lemma release_lookup s k :
  (∀ j, j ∈ waiters (semaphore s) →
        ∃ u, tasks s !! j = Some u ∧ stage u = Waiting) →
  tasks (release s) !! k = tasks s !! k
  ∨ ∃ u, tasks s !! k = Some u ∧ stage u = Waiting
         ∧ tasks (release s) !! k = Some (set_stage Entered u).
Proof.
  intros Hq. unfold release. destruct (waiters (semaphore s)) as [|w ws]; simpl.
  { by left. }
  destruct (Hq w) as (u & Hu & Hw); [left|].
  destruct (decide (w = k)) as [->|Hne].
  - right. exists u. by rewrite list_lookup_alter_eq, Hu.
  - left. by rewrite list_lookup_alter_ne.
Qed.

Section Steps.
Context `{Document Soup}.
Variable BeautifulSoup : str → result Soup.
Variable self : MacParser.

Lemma advance_effect limit i t t' s :
  sem_inv limit (tasks s) (semaphore s) → tasks s !! i = Some t →
  holds_slot t = true → holds_slot t' = true →
  let s' := set_task i t' s in
  tasks s' !! i = Some t' ∧ others_kept i s s'
  ∧ sem_inv limit (tasks s') (semaphore s').
Proof.
  intros Hsem Hi Ht Ht'. simpl. split_and!.
  - apply list_lookup_insert_eq. eauto using lookup_lt_Some.
  - intros k Hk. left. by apply list_lookup_insert_ne.
  - by eapply sem_inv_advance.
Qed.

Lemma leave_effect limit i t t' s :
  sem_inv limit (tasks s) (semaphore s) → tasks s !! i = Some t →
  holds_slot t = true → holds_slot t' = false → stage t' ≠ Waiting →
  let s' := release (set_task i t' s) in
  tasks s' !! i = Some t' ∧ others_kept i s s'
  ∧ sem_inv limit (tasks s') (semaphore s').
Proof.
  intros Hsem Hi Ht Ht' Hnw. simpl.
  assert (∀ j, j ∈ waiters (semaphore (set_task i t' s)) →
            ∃ u, tasks (set_task i t' s) !! j = Some u ∧ stage u = Waiting) as Hq.
  { intros j Hj. simpl in *.
    apply (lookup_insert_waiting _ i j t); auto using holds_slot_not_waiting.
    by apply (inv_queue _ _ _ Hsem). }
  assert (tasks (set_task i t' s) !! i = Some t') as Hi'.
  { apply list_lookup_insert_eq. eauto using lookup_lt_Some. }
  split_and!.
  - destruct (release_lookup _ i Hq) as [->|(u & Hu & Hw & _)]; [done|].
    congruence.
  - intros k Hk. destruct (release_lookup _ k Hq) as [->|(u & Hu & Hw & ->)].
    + left. by apply list_lookup_insert_ne.
    + right. exists u. split_and!; try done.
      simpl in Hu. by rewrite list_lookup_insert_ne in Hu.
  - by eapply sem_inv_leave.
Qed.

Lemma acquire_effect limit i t s :
  sem_inv limit (tasks s) (semaphore s) → tasks s !! i = Some t →
  stage t = Created →
  let s' := acquire i t s in
  ∃ t', tasks s' !! i = Some t' ∧ others_kept i s s'
    ∧ sem_inv limit (tasks s') (semaphore s')
    ∧ (t' = set_stage Entered t ∨ t' = set_stage Waiting t)
    ∧ outer s' = outer s ∧ log s' = log s.
Proof.
  intros Hsem Hi Ht. simpl.
  pose proof (sem_inv_acquire limit i t s Hsem Hi Ht) as Hsem'.
  pose proof (lookup_lt_Some _ _ _ Hi) as Hlt.
  unfold acquire in *. case_bool_decide; simpl in *.
  - exists (set_stage Entered t).
    split_and!; [by apply list_lookup_insert_eq| |done|by left|done|done].
    intros k Hk. left. by apply list_lookup_insert_ne.
  - exists (set_stage Waiting t).
    split_and!; [by apply list_lookup_insert_eq| |done|by right|done|done].
    intros k Hk. left. by apply list_lookup_insert_ne.
Qed.

Lemma step_unfold i s :
  step BeautifulSoup self i s
  = (t ← tasks s !! i; _parse_item BeautifulSoup self i t s).
Proof. reflexivity. Qed.

Lemma fetch_menu_unfold urljoin sched :
  fetch_menu BeautifulSoup urljoin self sched =
    match menu_nodes BeautifulSoup urljoin self with
    | Raise e => (Raises e, [])
    | Ok links =>
        match item_links urljoin links with
        | Raise e => (Raises e, [])
        | Ok urls =>
            (gather_outcome (run BeautifulSoup self sched (gather self urls)),
             log (run BeautifulSoup self sched (gather self urls)))
        end
    end.
Proof. reflexivity. Qed.

Lemma release_outer s : outer (release s) = outer s.
Proof. unfold release. by destruct (waiters (semaphore s)). Qed.

Lemma release_log s : log (release s) = log s.
Proof. unfold release. by destruct (waiters (semaphore s)). Qed.

(** Rewrite with what is known of the task's stage and of its page run. *)
Ltac use_page_facts :=
  repeat match goal with
    | H : stage _ = _ |- _ => rewrite H
    | H : new_page_res _ = _ |- _ => rewrite H
    | H : goto_res _ = _ |- _ => rewrite H
    | H : content_res _ = _ |- _ => rewrite H
    | H : close_res _ = _ |- _ => rewrite H
    | H : print_res _ _ = _ |- _ => rewrite H
    | H : BeautifulSoup _ = _ |- _ => rewrite H
    | H : item_of _ _ = _ |- _ => rewrite H
    end.

(** Close one case of [step_effect] from the effect [Heff] of the move. *)
Ltac settle_effect Heff :=
  let Hi' := fresh "Hi'" in
  destruct Heff as (Hi' & ? & ?); [done..|];
  eexists; split_and!; [done|exact Hi'|..]; try done;
  unfold task_wf, navigated, remaining, script_failure, page_at_exit; simpl;
  rewrite ?release_outer, ?release_log; use_page_facts;
  unfold item_of; use_page_facts; simpl;
  try done; try lia; try by destruct (outer _).

Lemma step_effect urls i s s' :
  loop_inv BeautifulSoup self urls s → step BeautifulSoup self i s = Some s' →
  ∃ t t', tasks s !! i = Some t ∧ tasks s' !! i = Some t' ∧
    runnable t = true ∧ item_link t' = item_link t ∧
    task_wf BeautifulSoup self i t' ∧
    remaining t' < remaining t ∧
    outer s' = match stage t' with
               | Raised e => Some (default e (outer s))
               | _ => outer s
               end ∧
    navigations (log s') =
      (if bool_decide (stage t = AtGoto) then [(i, item_link t)] else [])
      ++ navigations (log s) ∧
    navigated (context self i (item_link t)) t' =
      bool_decide (stage t = AtGoto)
      || navigated (context self i (item_link t)) t ∧
    others_kept i s s' ∧
    sem_inv (max_sim_pages self) (tasks s') (semaphore s').
Proof.
  intros Hinv Hstep. unfold step in Hstep.
  destruct (tasks s !! i) as [t|] eqn:Hi; simplify_eq/=.
  pose proof (inv_tasks _ _ _ _ Hinv i t Hi) as Hwf.
  pose proof (inv_sem _ _ _ _ Hinv) as Hsem.
  exists t. unfold _parse_item in Hstep. unfold task_wf in Hwf.
  assert (holds_slot t = negb (bool_decide (stage t = Created))) as Hholds.
  { unfold holds_slot. destruct (stage t); simplify_eq/=; done. }
  assert (runnable t = true) as Hrun.
  { unfold runnable. destruct (stage t); simplify_eq/=; done. }
  destruct (stage t) eqn:Hst; simplify_eq/=.
  - destruct (acquire_effect _ i t s Hsem Hi Hst)
      as (t' & Hi' & Hk & Hsem' & Ht' & Ho & Hl).
    exists t'. rewrite Ho, Hl.
    destruct Ht' as [-> | ->]; unfold task_wf, navigated, remaining; simpl;
      rewrite Hst; split_and!; try done; lia.
  - destruct (new_page_res (context self i (item_link t))) as [e|] eqn:Hnew.
    + settle_effect
        (leave_effect _ i t (set_stage (Raised e) t) (emit (EvNewPage i) s)
           Hsem Hi Hholds).
    + settle_effect
        (advance_effect _ i t (set_page PageOpen (set_stage AtGoto t))
           (emit (EvNewPage i) s) Hsem Hi Hholds).
  - destruct Hwf as [Hnew Hpage].
    destruct (goto_res (context self i (item_link t))) as [e|] eqn:Hgoto.
    + settle_effect
        (leave_effect _ i t (set_stage (Raised e) t)
           (emit (EvGoto i (item_link t)) s) Hsem Hi Hholds).
    + settle_effect
        (advance_effect _ i t (set_stage AtContent t)
           (emit (EvGoto i (item_link t)) s) Hsem Hi Hholds).
  - destruct Hwf as (Hnew & Hgoto & Hpage).
    destruct (content_res (context self i (item_link t))) as [c|e] eqn:Hcontent.
    + destruct (BeautifulSoup c) as [soup|e] eqn:Hparse.
      * settle_effect
          (advance_effect _ i t (set_stage (AtClose (extract_item soup)) t)
             (emit (EvContent i) s) Hsem Hi Hholds).
      * settle_effect
          (leave_effect _ i t (set_stage (Raised e) t) (emit (EvContent i) s)
             Hsem Hi Hholds).
    + settle_effect
        (leave_effect _ i t (set_stage (Raised e) t) (emit (EvContent i) s)
           Hsem Hi Hholds).
  - destruct Hwf as (Hnew & Hgoto & Hitem & Hpage).
    assert (∃ c soup, content_res (context self i (item_link t)) = Ok c
                      ∧ BeautifulSoup c = Ok soup ∧ item = extract_item soup)
      as (c & soup & Hcontent & Hparse & ->).
    { unfold item_of in Hitem. destruct (content_res _) as [c|]; [|done].
      destruct (BeautifulSoup c) as [soup|] eqn:Hparse; simplify_eq. eauto. }
    destruct (close_res (context self i (item_link t))) as [e|] eqn:Hclose.
    + settle_effect
        (leave_effect _ i t (set_stage (Raised e) (set_page PageCloseRaised t))
           (emit (EvClose i) s) Hsem Hi Hholds).
    + destruct (print_res (context self i (item_link t))
                  (item_parsed (name (extract_item soup)))) as [e|] eqn:Hprint.
      * settle_effect
          (leave_effect _ i t (set_stage (Raised e) (set_page PageClosed t))
             (emit (EvPrint (name (extract_item soup))) (emit (EvClose i) s))
             Hsem Hi Hholds).
      * settle_effect
          (leave_effect _ i t
             (set_stage (Returned (extract_item soup)) (set_page PageClosed t))
             (emit (EvPrint (name (extract_item soup))) (emit (EvClose i) s))
             Hsem Hi Hholds).
Qed.

Lemma others_kept_stage i s s' k u' :
  others_kept i s s' → k ≠ i → tasks s' !! k = Some u' →
  ∃ u, tasks s !! k = Some u ∧ item_link u' = item_link u ∧ page u' = page u
       ∧ (u' = u ∨ stage u = Waiting ∧ stage u' = Entered).
Proof.
  intros Hk Hne Hu'. destruct (Hk k Hne) as [Heq|(u & Hu & Hw & Heq)].
  - exists u'. rewrite <-Heq. split_and!; try done. by left.
  - exists u. rewrite Heq in Hu'. simplify_eq/=. split_and!; try done. by right.
Qed.

Lemma others_kept_back i s s' k u :
  others_kept i s s' → k ≠ i → tasks s !! k = Some u →
  ∃ u', tasks s' !! k = Some u' ∧ item_link u' = item_link u
        ∧ (u' = u ∨ stage u = Waiting ∧ stage u' = Entered).
Proof.
  intros Hk Hne Hu. destruct (Hk k Hne) as [Heq|(u0 & Hu0 & Hw & Heq)].
  - exists u. rewrite Heq. split_and!; try done. by left.
  - exists (set_stage Entered u0). simplify_eq/=. split_and!; try done. by right.
Qed.

Lemma step_inv urls i s s' :
  loop_inv BeautifulSoup self urls s → step BeautifulSoup self i s = Some s' →
  loop_inv BeautifulSoup self urls s'.
Proof.
  intros Hinv Hstep.
  destruct (step_effect urls i s s' Hinv Hstep)
    as (t & t' & Hi & Hi' & Hrun & Hlink & Hwf & _ & Houter & Hnav & Hnavd & Hk & Hsem).
  assert (∀ e, stage t ≠ Raised e) as Hnr.
  { intros e He. unfold runnable in Hrun. by rewrite He in Hrun. }
  split; try done.
  - rewrite <-(inv_links _ _ _ _ Hinv). apply list_eq. intros k.
    rewrite !list_lookup_fmap. destruct (decide (k = i)) as [->|Hne].
    + by rewrite Hi, Hi'; simpl; rewrite Hlink.
    + destruct (Hk k Hne) as [->|(u & Hu & _ & ->)]; [done|]. by rewrite Hu.
  - intros k u' Hu'. destruct (decide (k = i)) as [->|Hne]; [by simplify_eq|].
    destruct (others_kept_stage i s s' k u' Hk Hne Hu')
      as (u & Hu & Hl & Hp & [->|[Hw Ha]]).
    + by eapply inv_tasks.
    + pose proof (inv_tasks _ _ _ _ Hinv k u Hu) as Hwfu.
      unfold task_wf in *. rewrite Hw in Hwfu. rewrite Ha. congruence.
  - intros e He.
    assert (outer s = Some e → ∃ k u, tasks s' !! k = Some u ∧ stage u = Raised e) as Hold.
    { intros Ho. destruct (inv_outer_some _ _ _ _ Hinv e Ho) as (k & u & Hu & Hr).
      assert (k ≠ i) as Hne by (intros ->; simplify_eq; by eapply Hnr).
      destruct (others_kept_back i s s' k u Hk Hne Hu) as (u' & Hu' & _ & [->|[Hw _]]).
      - by exists k, u.
      - congruence. }
    destruct (stage t') as [| | | | | | |e'] eqn:Hst'; try (rewrite Houter in He; auto).
    destruct (outer s) as [e0|] eqn:Ho; simplify_eq/=; [auto|].
    by exists i, t'.
  - intros Ho k u' e Hu' He.
    destruct (decide (k = i)) as [->|Hne].
    + simplify_eq. by rewrite He, Ho in Houter.
    + assert (outer s = None) as Ho'.
      { destruct (stage t'); try congruence. }
      destruct (others_kept_stage i s s' k u' Hk Hne Hu')
        as (u & Hu & _ & _ & [->|[Hw Ha]]); [|congruence].
      by eapply (inv_outer_none _ _ _ _ Hinv).
  - rewrite Hnav. case_bool_decide as Hg; simpl; [|by eapply inv_nav_nodup].
    apply NoDup_cons. split; [|by eapply inv_nav_nodup].
    rewrite (inv_nav _ _ _ _ Hinv). intros (u & Hu & _ & Hn). simplify_eq.
    unfold navigated in Hn. by rewrite Hg in Hn.
  - intros k url. rewrite Hnav. destruct (decide (k = i)) as [->|Hne].
    + rewrite Hi'. split.
      * intros Hin. exists t'. split; [done|].
        case_bool_decide as Hg; simpl in Hin.
        -- apply elem_of_cons in Hin as [Heq|Hin].
           ++ simplify_eq. split; [done|]. by rewrite Hnavd.
           ++ apply (inv_nav _ _ _ _ Hinv) in Hin as (u & Hu & Hl & Hn).
              simplify_eq. split; [done|]. rewrite Hnavd, Hn. apply orb_true_r.
        -- apply (inv_nav _ _ _ _ Hinv) in Hin as (u & Hu & Hl & Hn).
           simplify_eq. split; [done|]. rewrite Hnavd, Hn. apply orb_true_r.
      * intros (u & Hu & Hl & Hn). simplify_eq. rewrite Hlink in Hn.
        rewrite Hnavd in Hn. case_bool_decide as Hg; simpl in *.
        -- rewrite Hlink. left.
        -- apply (inv_nav _ _ _ _ Hinv). exists t. by rewrite Hlink.
    + assert ((k, url) ∈ (if bool_decide (stage t = AtGoto)
                          then [(i, item_link t)] else []) ++ navigations (log s)
              ↔ (k, url) ∈ navigations (log s)) as ->.
      { rewrite elem_of_app. split; [|by right]. intros [Hin|?]; [|done].
        case_bool_decide; [|by apply not_elem_of_nil in Hin].
        apply list_elem_of_singleton in Hin. congruence. }
      rewrite (inv_nav _ _ _ _ Hinv). split.
      * intros (u & Hu & Hl & Hn).
        destruct (others_kept_back i s s' k u Hk Hne Hu) as (u' & Hu' & Hl' & [->|[Hw _]]).
        -- eauto.
        -- unfold navigated in Hn. by rewrite Hw in Hn.
      * intros (u' & Hu' & Hl' & Hn).
        destruct (others_kept_stage i s s' k u' Hk Hne Hu')
          as (u & Hu & Hl & _ & [->|[_ Ha]]).
        -- eauto.
        -- unfold navigated in Hn. by rewrite Ha in Hn.
Qed.
End Steps.

(** ** Runs of the event loop *)

Section Runs.
Context `{Document Soup}.
Variable BeautifulSoup : str → result Soup.
Variable self : MacParser.

Local Abbreviation step := (step BeautifulSoup self).
Local Abbreviation run := (run BeautifulSoup self).
Local Abbreviation loop_inv := (loop_inv BeautifulSoup self).

Lemma active_created (urls : list str) :
  active ((λ url, mkTask url Created NoPage) <$> urls) = 0.
Proof. unfold active. induction urls as [|u us IH]; [done|]. exact IH. Qed.

Lemma gather_inv urls : loop_inv urls (gather self urls).
Proof.
  assert (∀ k t, ((λ url, mkTask url Created NoPage) <$> urls) !! k = Some t →
                 stage t = Created ∧ page t = NoPage) as Hnew.
  { intros k t. rewrite list_lookup_fmap. destruct (urls !! k); intros; by simplify_eq/=. }
  split; simpl.
  - rewrite <-list_fmap_compose. apply list_fmap_id.
  - intros i t [Hs Hp]%Hnew. unfold task_wf. by rewrite Hs.
  - split; simpl.
    + by rewrite active_created.
    + intros j. split; [by intros ?%not_elem_of_nil|].
      intros (t & [Hs _]%Hnew & Hw). congruence.
    + apply NoDup_nil_2.
    + done.
  - done.
  - intros _ i t e [Hs _]%Hnew. congruence.
  - apply NoDup_nil_2.
  - intros i url. split; [by intros ?%not_elem_of_nil|].
    intros (t & [Hs _]%Hnew & _ & Hn). unfold navigated in Hn. by rewrite Hs in Hn.
Qed.

Lemma run_app sched sched' s : run (sched ++ sched') s = run sched' (run sched s).
Proof. apply foldl_app. Qed.

Lemma run_inv urls sched s : loop_inv urls s → loop_inv urls (run sched s).
Proof.
  revert s. induction sched as [|i sched IH]; intros s Hinv; simpl; [done|].
  apply IH. destruct (step i s) as [s'|] eqn:Hstep; simpl; [|done].
  by eapply step_inv.
Qed.

Lemma step_work_left urls i s s' :
  loop_inv urls s → step i s = Some s' →
  work_left (tasks s') < work_left (tasks s).
Proof.
  intros Hinv Hstep.
  pose proof (step_inv _ _ urls i s s' Hinv Hstep) as Hinv'.
  destruct (step_effect _ _ urls i s s' Hinv Hstep)
    as (t & t' & Hi & Hi' & _ & _ & _ & Hlt & _ & _ & _ & Hk & _).
  apply (sum_list_with_lt remaining _ _ i t t'); try done.
  - rewrite <-(length_fmap item_link (tasks s)), <-(length_fmap item_link (tasks s')).
    by rewrite (inv_links _ _ _ _ Hinv), (inv_links _ _ _ _ Hinv').
  - intros k y y' Hy Hy'. destruct (decide (k = i)) as [->|Hne]; [simplify_eq; lia|].
    destruct (others_kept_stage i s s' k y' Hk Hne Hy') as (u & Hu & _ & _ & [->|[Hw Ha]]);
      simplify_eq; [done|]. unfold remaining. rewrite Hw, Ha. lia.
Qed.

Lemma work_left_gather urls : work_left (tasks (gather self urls)) = 6 * length urls.
Proof.
  simpl. induction urls as [|u us IH]; [done|].
  change (6 + work_left ((λ url, mkTask url Created NoPage) <$> us) = 6 * S (length us)).
  rewrite IH. lia.
Qed.

Lemma run_work_left urls sched s :
  loop_inv urls s → work_left (tasks (run sched s)) ≤ work_left (tasks s).
Proof.
  revert s. induction sched as [|i sched IH]; intros s Hinv; simpl; [done|].
  destruct (step i s) as [s'|] eqn:Hstep; simpl; [|by apply IH].
  pose proof (step_work_left urls i s s' Hinv Hstep).
  pose proof (IH s' (step_inv _ _ urls i s s' Hinv Hstep)). lia.
Qed.

(** A runnable task can always be resumed. *)
Lemma runnable_step i t s :
  tasks s !! i = Some t → runnable t = true → is_Some (step i s).
Proof.
  intros Hi Hrun. rewrite step_unfold, Hi. simpl.
  unfold _parse_item, runnable in *. destruct (stage t); try done; eauto.
Qed.

(** No deadlock: while [gather] is pending some task can be resumed. *)
Lemma progress urls s :
  loop_inv urls s → 1 ≤ max_sim_pages self → gather_outcome s = Pending →
  ∃ i s', step i s = Some s'.
Proof.
  intros Hinv Hlimit Hpending. unfold gather_outcome in Hpending.
  destruct (outer s) as [e|] eqn:Ho; [done|].
  destruct (results (tasks s)) as [menu|] eqn:Hres; [done|].
  apply mapM_None, Exists_exists in Hres as (t & Hin & Hnone).
  apply list_elem_of_lookup in Hin as [i Hi].
  assert (∃ j u, tasks s !! j = Some u ∧ runnable u = true) as (j & u & Hj & Hrun).
  { destruct (runnable t) eqn:Hrun; [eauto|].
    assert (stage t = Waiting) as Hw.
    { pose proof (inv_outer_none _ _ _ _ Hinv Ho i t) as Hnr.
      unfold runnable in Hrun. destruct (stage t) eqn:Hst; try done.
      by destruct (Hnr e Hi). }
    destruct (inv_sem _ _ _ _ Hinv) as [Hslots Hqueue _ Hlocked].
    assert (waiters (semaphore s) ≠ []) as Hne.
    { intros Hnil. assert (i ∈ waiters (semaphore s)) as Hin by (apply Hqueue; eauto).
      rewrite Hnil in Hin. by apply not_elem_of_nil in Hin. }
    destruct (sum_list_with_pos (λ t, Nat.b2n (holds_slot t)) (tasks s))
      as (j & u & Hj & Hu).
    { rewrite (Hlocked Hne) in Hslots. unfold active in Hslots. lia. }
    exists j, u. split; [done|]. unfold runnable, holds_slot in *.
    destruct (stage u); try done; simpl in Hu; lia. }
  destruct (runnable_step j u s Hj Hrun) as [s' Hs']. eauto.
Qed.

(** Every loop can be driven to the end of [gather], in at most as many
    resumptions as there is work left. *)
Lemma completion urls s :
  loop_inv urls s → 1 ≤ max_sim_pages self →
  ∃ ext, length ext ≤ work_left (tasks s)
         ∧ gather_outcome (run ext s) ≠ Pending.
Proof.
  intros Hinv Hlimit.
  remember (work_left (tasks s)) as n eqn:Hn.
  revert s Hinv Hn. induction (lt_wf n) as [n _ IH]. intros s Hinv ->.
  destruct (gather_outcome s) eqn:Hp;
    [|exists []; simpl; rewrite Hp; split; [lia|done]..].
  - destruct (progress urls s Hinv Hlimit Hp) as (i & s' & Hstep).
    pose proof (step_work_left urls i s s' Hinv Hstep) as Hlt.
    destruct (IH _ Hlt s' (step_inv _ _ urls i s s' Hinv Hstep) eq_refl)
      as (ext & Hlen & Hdone).
    exists (i :: ext). simpl. rewrite Hstep. simpl. split; [lia|done].
Qed.
End Runs.

(** ** What [gather] gives back *)

Section Results.
Context `{Document Soup}.
Variable BeautifulSoup : str → result Soup.
Variable self : MacParser.

Local Abbreviation step := (step BeautifulSoup self).
Local Abbreviation run := (run BeautifulSoup self).
Local Abbreviation loop_inv := (loop_inv BeautifulSoup self).
Local Abbreviation positional := (positional BeautifulSoup self).
Local Abbreviation all_pages_load := (all_pages_load BeautifulSoup self).
Local Abbreviation script_failure := (script_failure BeautifulSoup).

Lemma inv_task_link urls s i :
  loop_inv urls s → urls !! i = item_link <$> tasks s !! i.
Proof. intros Hinv. by rewrite <-(inv_links _ _ _ _ Hinv), list_lookup_fmap. Qed.

Lemma returns_positional urls s menu :
  loop_inv urls s → gather_outcome s = Returns menu →
  positional urls menu ∧ all_pages_load urls.
Proof.
  intros Hinv Hret. unfold gather_outcome in Hret.
  destruct (outer s); [done|].
  destruct (results (tasks s)) as [menu'|] eqn:Hres; simplify_eq.
  apply mapM_Some in Hres.
  assert (∀ i url, urls !! i = Some url →
            ∃ t item, tasks s !! i = Some t ∧ item_link t = url
                      ∧ stage t = Returned item ∧ menu !! i = Some item) as Hall.
  { intros i url Hurl. rewrite (inv_task_link urls s i Hinv) in Hurl.
    destruct (tasks s !! i) as [t|] eqn:Hi; simplify_eq/=.
    destruct (Forall2_lookup_l _ _ _ _ _ Hres Hi) as (item & Hitem & Hst).
    exists t, item. split_and!; try done. by destruct (stage t); simplify_eq. }
  split; [split|].
  - rewrite <-(Forall2_length _ _ _ Hres), <-(inv_links _ _ _ _ Hinv).
    by rewrite length_fmap.
  - intros i url (t & item & Hi & <- & Hst & Hitem)%Hall.
    pose proof (inv_tasks _ _ _ _ Hinv i t Hi) as Hwf. unfold task_wf in Hwf.
    rewrite Hst in Hwf. destruct Hwf as (_ & Hof & _). unfold item_of in Hof.
    destruct (content_res _) as [c|]; [|done].
    destruct (BeautifulSoup c) as [soup|] eqn:Hsoup; simplify_eq. eauto.
  - intros i url (t & item & Hi & <- & Hst & Hitem)%Hall.
    pose proof (inv_tasks _ _ _ _ Hinv i t Hi) as Hwf. unfold task_wf in Hwf.
    rewrite Hst in Hwf. by destruct Hwf.
Qed.

Lemma positional_unique urls menu menu' :
  positional urls menu → positional urls menu' → menu = menu'.
Proof.
  intros [Hlen Hpos] [Hlen' Hpos']. apply list_eq. intros i.
  destruct (urls !! i) as [url|] eqn:Hurl.
  - destruct (Hpos i url Hurl) as (c & soup & Hc & Hsoup & ->).
    destruct (Hpos' i url Hurl) as (c' & soup' & Hc' & Hsoup' & ->). congruence.
  - apply lookup_ge_None in Hurl.
    rewrite (proj2 (lookup_ge_None menu i)), (proj2 (lookup_ge_None menu' i)); [done|lia..].
Qed.

Lemma raises_failure urls s e :
  loop_inv urls s → gather_outcome s = Raises e →
  ∃ i url, urls !! i = Some url ∧ script_failure (context self i url) = Some e.
Proof.
  intros Hinv Hr. unfold gather_outcome in Hr.
  destruct (outer s) as [e'|] eqn:Ho; [|by destruct (results (tasks s))].
  simplify_eq. destruct (inv_outer_some _ _ _ _ Hinv e Ho) as (i & t & Hi & Hst).
  exists i, (item_link t). split.
  - by rewrite (inv_task_link urls s i Hinv), Hi.
  - pose proof (inv_tasks _ _ _ _ Hinv i t Hi) as Hwf. unfold task_wf in Hwf.
    rewrite Hst in Hwf. by destruct Hwf.
Qed.

Lemma completion_returns urls s :
  loop_inv urls s → 1 ≤ max_sim_pages self → all_pages_load urls →
  ∃ ext menu, length ext ≤ work_left (tasks s)
              ∧ gather_outcome (run ext s) = Returns menu.
Proof.
  intros Hinv Hlimit Hload.
  destruct (completion _ _ urls s Hinv Hlimit) as (ext & Hlen & Hdone).
  exists ext. destruct (gather_outcome (run ext s)) as [|e|menu] eqn:Hout; [done| |eauto].
  destruct (raises_failure urls _ e (run_inv _ _ urls ext s Hinv) Hout)
    as (i & url & Hurl & Hfail).
  rewrite (Hload i url Hurl) in Hfail. done.
Qed.

(** Once [gather] has raised, nothing that happens later changes that. *)
Lemma run_outer urls sched s e :
  loop_inv urls s → outer s = Some e → outer (run sched s) = Some e.
Proof.
  revert s. induction sched as [|i sched IH]; intros s Hinv Ho; simpl; [done|].
  destruct (step i s) as [s'|] eqn:Hstep; simpl; [|by apply IH].
  apply IH; [by eapply step_inv|].
  destruct (step_effect _ _ urls i s s' Hinv Hstep)
    as (t & t' & _ & _ & _ & _ & _ & _ & Houter & _).
  rewrite Houter, Ho. by destruct (stage t').
Qed.
End Results.

(** ** [fetch_menu] *)

Section Claims.
Context `{Document Soup}.
Variable BeautifulSoup : str → result Soup.
Variable urljoin : str → str → result str.

Local Abbreviation step := (step BeautifulSoup).
Local Abbreviation run := (run BeautifulSoup).
Local Abbreviation loop_inv := (loop_inv BeautifulSoup).
Local Abbreviation positional := (positional BeautifulSoup).
Local Abbreviation all_pages_load := (all_pages_load BeautifulSoup).
Local Abbreviation script_failure := (script_failure BeautifulSoup).
Local Abbreviation menu_nodes := (menu_nodes BeautifulSoup urljoin).
Local Abbreviation item_links := (item_links urljoin).
Local Abbreviation fetch_menu := (fetch_menu BeautifulSoup urljoin).

Lemma fetch_menu_run self links urls sched :
  menu_nodes self = Ok links → item_links links = Ok urls →
  fetch_menu self sched =
    (gather_outcome (run self sched (gather self urls)),
     log (run self sched (gather self urls))).
Proof. intros Hn Hl. by rewrite fetch_menu_unfold, Hn, Hl. Qed.

Lemma reachable_inv self urls sched :
  loop_inv self urls (run self sched (gather self urls)).
Proof. apply run_inv, gather_inv. Qed.

(** Once every invocation has ended, the semaphore is as it was made. *)
Lemma ended_semaphore self urls s :
  loop_inv self urls s → Forall (λ t, ended t = true) (tasks s) →
  value (semaphore s) = max_sim_pages self ∧ waiters (semaphore s) = [].
Proof.
  intros Hinv Hall. destruct (inv_sem _ _ _ _ Hinv) as [Hslots Hqueue _ _].
  split.
  - assert (active (tasks s) = 0) as Hz; [|lia].
    apply sum_list_with_zero. intros k t Hk.
    pose proof (Forall_lookup_1 _ _ _ _ Hall Hk) as Hend.
    unfold ended, holds_slot in *. by destruct (stage t).
  - destruct (waiters _) as [|j w] eqn:Hw; [done|].
    destruct (proj1 (Hqueue j)) as (t & Hj & Hwait); [left|].
    pose proof (Forall_lookup_1 _ _ _ _ Hall Hj) as Hend.
    unfold ended in Hend. by rewrite Hwait in Hend.
Qed.

(** ** The listing *)

Lemma item_links_first_missing links before link after :
  first_without_href urljoin links before link after →
  item_links links = Raise (KeyError (lit "href")).
Proof.
  intros (-> & Hnone & Hbefore).
  induction Hbefore as [|l before (href & url & Hl & Hjoin) _ IH]; simpl.
  - by rewrite Hnone.
  - by rewrite Hl, Hjoin, IH.
Qed.

Lemma item_links_missing links :
  (∃ link, link ∈ links ∧ attrs link !! lit "href" = None) →
  ∃ e, item_links links = Raise e ∧ first_failure urljoin links e.
Proof.
  intros (link & Hin & Hnone). induction links as [|l links IH]; simpl.
  - by apply not_elem_of_nil in Hin.
  - destruct (attrs l !! lit "href") as [href|] eqn:Hl.
    + destruct (urljoin BASE_URL href) as [url|e] eqn:Hjoin.
      * apply elem_of_cons in Hin as [->|Hin]; [congruence|].
        destruct (IH Hin) as (e & -> & before & bad & after & -> & Hbefore & Hbad).
        exists e. split; [done|]. exists (l :: before), bad, after.
        split_and!; [done| |done]. constructor; [|done]. by exists href, url.
      * exists e. split; [done|]. exists [], l, links.
        split_and!; [done|constructor|]. right. by exists href.
    + exists (KeyError (lit "href")). split; [done|]. exists [], l, links.
      split_and!; [done|constructor|]. by left.
Qed.

Lemma item_links_ok links urls :
  item_links links = Ok urls →
  Forall2 (λ link url, ∃ href, attrs link !! lit "href" = Some href
                               ∧ urljoin BASE_URL href = Ok url) links urls.
Proof.
  revert urls. induction links as [|l links IH]; intros urls Hok; simpl in Hok.
  - simplify_eq. constructor.
  - destruct (attrs l !! lit "href") as [href|] eqn:Hl; [|done].
    destruct (urljoin BASE_URL href) as [url|] eqn:Hjoin; [|done].
    destruct (item_links links) as [urls'|]; simplify_eq.
    constructor; eauto.
Qed.

(** C9 (as amended): when a node taken for an item link has no [href],
    [fetch_menu] raises while it builds the arguments of [gather]: whatever
    the event loop would do, the caller gets an exception and no page has
    been opened or navigated. The exception is that of the first link of
    the listing that fails: [KeyError] when that link has no [href], the
    exception of [urljoin] when that link has an [href] [urljoin] rejects.
    So it is [KeyError] when every link before the first one without
    [href] has an [href] that [urljoin] accepts. *)
Theorem C9_first_failing_link_raises self links :
  menu_nodes self = Ok links →
  (∃ link, link ∈ links ∧ attrs link !! lit "href" = None) →
  ∀ sched,
    (∃ e, fetch_menu self sched = (Raises e, [])
          ∧ first_failure urljoin links e)
    ∧ (∀ before link after,
         first_without_href urljoin links before link after →
         fetch_menu self sched = (Raises (KeyError (lit "href")), [])).
Proof.
  intros Hn Hmiss sched. rewrite fetch_menu_unfold, Hn. split.
  - destruct (item_links_missing links Hmiss) as (e & -> & Hfirst). eauto.
  - intros before link after Hfirst.
    by rewrite (item_links_first_missing links before link after Hfirst).
Qed.

Lemma fetch_menu_returns self links urls sched menu :
  menu_nodes self = Ok links → item_links links = Ok urls →
  (fetch_menu self sched).1 = Returns menu →
  positional self urls menu ∧ all_pages_load self urls.
Proof.
  intros Hn Hl. rewrite (fetch_menu_run self links urls sched Hn Hl). simpl.
  intros Hret. by eapply returns_positional, Hret; apply reachable_inv.
Qed.

Lemma fetch_menu_completes self links urls sched :
  menu_nodes self = Ok links → item_links links = Ok urls →
  1 ≤ max_sim_pages self → all_pages_load self urls →
  ∃ ext menu,
    length ext ≤ 6 * length urls
    ∧ (fetch_menu self (sched ++ ext)).1 = Returns menu
    ∧ positional self urls menu.
Proof.
  intros Hn Hl Hlimit Hload.
  pose proof (reachable_inv self urls sched) as Hinv.
  destruct (completion_returns _ _ urls _ Hinv Hlimit Hload)
    as (ext & menu & Hlen & Hret).
  exists ext, menu. rewrite (fetch_menu_run self links urls _ Hn Hl). simpl.
  rewrite run_app. split_and!; [|done|].
  - pose proof (run_work_left BeautifulSoup self urls sched _
                  (gather_inv BeautifulSoup self urls)) as Hle.
    rewrite work_left_gather in Hle. lia.
  - by eapply returns_positional, Hret; apply run_inv.
Qed.

(** C1: when [fetch_menu] returns, under any schedule of the event loop,
    the list has one item per link and its [i]-th item is the one
    extracted from the page of the [i]-th URL; and when nothing raises
    in the invocation of any link and the limit is at least 1, every
    schedule can be carried on, in at most [6 * N] resumptions, to the
    point where [fetch_menu] returns that list. *)
Theorem C1_results_follow_link_order self links urls :
  menu_nodes self = Ok links → item_links links = Ok urls →
  1 ≤ max_sim_pages self →
  (∀ sched menu, (fetch_menu self sched).1 = Returns menu →
                 positional self urls menu)
  ∧ (all_pages_load self urls →
     ∀ sched, ∃ ext menu,
       length ext ≤ 6 * length urls
       ∧ (fetch_menu self (sched ++ ext)).1 = Returns menu
       ∧ positional self urls menu).
Proof.
  intros Hn Hl Hlimit. split.
  - intros sched menu Hret.
    by destruct (fetch_menu_returns self links urls sched menu Hn Hl Hret).
  - intros Hload sched. by eapply fetch_menu_completes.
Qed.

(** C4: in every state a run of [fetch_menu] goes through, the
    invocations of [_parse_item] past the acquisition of the semaphore and
    before its release are at most [max_sim_pages], and every running
    invocation with an open page is one of them. *)
Theorem C4_active_within_limit self urls sched :
  let s := run self sched (gather self urls) in
  active (tasks s) ≤ max_sim_pages self
  ∧ working_pages (tasks s) ≤ active (tasks s).
Proof.
  simpl. pose proof (reachable_inv self urls sched) as Hinv. split.
  - pose proof (inv_slots _ _ _ (inv_sem _ _ _ _ Hinv)). lia.
  - apply sum_list_with_mono. intros k t Hk.
    pose proof (inv_tasks _ _ _ _ Hinv k t Hk) as Hwf.
    unfold task_wf, ended, holds_slot in *.
    destruct (stage t); simpl; try lia;
      try (rewrite Hwf; simpl; lia); destruct (bool_decide _); simpl; lia.
Qed.

(** C2 (as amended): the page of an invocation is closed when the
    invocation returns its item, and when [page.close()] has returned and
    only the [print] after it raises. When the invocation ends by an
    exception of [page.goto], of [page.content] or of the parse of the
    content, [page.close()] has not been called and the page is still
    open, since nothing closes it on that path. The semaphore alone is
    scoped: the slots held by running invocations and the slots free
    always add up to [max_sim_pages], an invocation that has ended, by
    [return] or by an exception, holds none and waits for none, and once
    all have ended the semaphore is as it was made. *)
Theorem C2_page_closed_unless_failure_before_close self urls sched i t :
  let s := run self sched (gather self urls) in
  let r := context self i (item_link t) in
  tasks s !! i = Some t →
  (∀ item, stage t = Returned item → page t = PageClosed)
  ∧ (∀ e, stage t = Raised e → fails_before_close BeautifulSoup r →
          page t = PageOpen)
  ∧ (∀ e, stage t = Raised e → fails_after_close BeautifulSoup r →
          page t = PageClosed)
  ∧ active (tasks s) + value (semaphore s) = max_sim_pages self
  ∧ (ended t = true → holds_slot t = false ∧ i ∉ waiters (semaphore s))
  ∧ (Forall (λ t, ended t = true) (tasks s) →
     value (semaphore s) = max_sim_pages self ∧ waiters (semaphore s) = []).
Proof.
  simpl. intros Hi. pose proof (reachable_inv self urls sched) as Hinv.
  pose proof (inv_tasks _ _ _ _ Hinv i t Hi) as Hwf.
  unfold task_wf in Hwf. split_and!; [| | | | |by apply (ended_semaphore self urls)].
  - intros item Hst. rewrite Hst in Hwf. by destruct Hwf as (_ & _ & ?).
  - intros e Hst [Hnew Hbefore]. rewrite Hst in Hwf. destruct Hwf as [_ ->].
    unfold page_at_exit. rewrite Hnew.
    destruct Hbefore as [Hgoto| ->]; by destruct (goto_res _).
  - intros e Hst (Hnew & Hgoto & [item Hitem] & Hclose). rewrite Hst in Hwf.
    destruct Hwf as [_ ->]. unfold page_at_exit.
    by rewrite Hnew, Hgoto, Hitem, Hclose.
  - apply (inv_slots _ _ _ (inv_sem _ _ _ _ Hinv)).
  - intros Hend. split; [by unfold ended, holds_slot in *; destruct (stage t)|].
    intros (u & Hu & Hwait)%(inv_queue _ _ _ (inv_sem _ _ _ _ Hinv)).
    rewrite Hi in Hu. simplify_eq. unfold ended in Hend. by rewrite Hwait in Hend.
Qed.

(** C3: when the navigation of the [i]-th item page fails with [e], no
    schedule makes [fetch_menu] return a menu; the resumption in which
    [page.goto] fails ends the task with [e], uncaught, and from then on
    [fetch_menu] raises (with [e], unless another task's exception was
    first), whatever the other tasks do; and with a limit of at least 1
    every schedule can be carried on until [fetch_menu] raises. *)
Theorem C3_navigation_failure_aborts self links urls i url e :
  menu_nodes self = Ok links → item_links links = Ok urls →
  urls !! i = Some url →
  new_page_res (context self i url) = None →
  goto_res (context self i url) = Some e →
  ∀ sched,
    let s := run self sched (gather self urls) in
    (∀ menu, (fetch_menu self sched).1 ≠ Returns menu)
    ∧ (∀ t, tasks s !! i = Some t → stage t = AtGoto →
         ∃ s', step self i s = Some s'
               ∧ stage <$> tasks s' !! i = Some (Raised e)
               ∧ ∀ later, (fetch_menu self (sched ++ i :: later)).1
                          = Raises (default e (outer s)))
    ∧ (1 ≤ max_sim_pages self →
       ∃ ext e', (fetch_menu self (sched ++ ext)).1 = Raises e').
Proof.
  intros Hn Hl Hurl Hnew Hgoto sched. simpl.
  assert (script_failure (context self i url) = Some e) as Hfail.
  { unfold script_failure. by rewrite Hnew, Hgoto. }
  assert (∀ sched menu, (fetch_menu self sched).1 ≠ Returns menu) as Hnever.
  { intros sched' menu. rewrite (fetch_menu_run self links urls _ Hn Hl). simpl.
    intros Hret.
    destruct (returns_positional _ _ urls _ menu (reachable_inv self urls sched') Hret)
      as [_ Hload].
    rewrite (Hload i url Hurl) in Hfail. done. }
  pose proof (reachable_inv self urls sched) as Hinv.
  split_and!; [done| |].
  - intros t Hi Hst.
    assert (item_link t = url) as Hlink.
    { pose proof (inv_task_link _ _ urls _ i Hinv) as Hu.
      rewrite Hurl, Hi in Hu. by simplify_eq/=. }
    assert (step self i (run self sched (gather self urls)) =
            Some (fail i t e (emit (EvGoto i (item_link t))
                                (run self sched (gather self urls))))) as Hstep.
    { rewrite step_unfold, Hi. simpl. unfold _parse_item.
      by rewrite Hst, Hlink, Hgoto. }
    eexists. split; [exact Hstep|].
    pose proof (inv_sem _ _ _ _ Hinv) as Hsem.
    destruct (leave_effect _ i t (set_stage (Raised e) t)
                (emit (EvGoto i (item_link t)) (run self sched (gather self urls))) Hsem Hi)
      as (Hi' & _ & _); [by unfold holds_slot; rewrite Hst|done..|].
    split; [by unfold fail; simpl; rewrite Hi'|].
    intros later. rewrite (fetch_menu_run self links urls _ Hn Hl). simpl.
    rewrite run_app. simpl. rewrite Hstep. simpl. unfold gather_outcome.
    rewrite (run_outer _ _ urls later _ (default e (outer (run self sched (gather self urls))))).
    + done.
    + by eapply step_inv.
    + unfold fail. simpl. rewrite release_outer. simpl.
      by destruct (outer (run self sched (gather self urls))).
  - intros Hlimit.
    destruct (completion _ _ urls _ Hinv Hlimit) as (ext & _ & Hdone).
    exists ext.
    destruct (gather_outcome (run self ext (run self sched (gather self urls))))
      as [|e'|menu] eqn:Hout; [done| |].
    + exists e'. rewrite (fetch_menu_run self links urls _ Hn Hl). simpl.
      by rewrite run_app.
    + destruct (Hnever (sched ++ ext) menu).
      rewrite (fetch_menu_run self links urls _ Hn Hl). simpl.
      by rewrite run_app.
Qed.

(** C7: extraction cannot fail. A selector that matches nothing gives the
    empty string for its field, so a page where nothing matches gives the
    item with ten empty strings; and for any content the page returns, the
    resumption that extracts the item moves the task on to [page.close()]
    with that item and passes no exception to [gather]. *)
Theorem C7_extraction_never_raises (soup : Soup) :
  (∀ field sel, (field, sel) ∈ string_opt_fields ++ hidden_fields →
                select soup sel = [] → field (extract_item soup) = [])
  ∧ ((∀ sel, select soup sel = []) →
     extract_item soup = mkMenuItem [] [] [] [] [] [] [] [] [] [])
  ∧ (∀ self i t s page_content,
       tasks s !! i = Some t → stage t = AtContent →
       content_res (context self i (item_link t)) = Ok page_content →
       BeautifulSoup page_content = Ok soup →
       ∃ s', step self i s = Some s'
             ∧ tasks s' !! i = Some (set_stage (AtClose (extract_item soup)) t)
             ∧ outer s' = outer s).
Proof.
  split_and!.
  - intros field sel [Hin|Hin]%elem_of_app Hnone.
    + rewrite (string_opt_fields_extract soup field sel Hin).
      unfold _take_string_opt, select_one. by rewrite Hnone.
    + rewrite (hidden_fields_extract soup field sel Hin).
      unfold _take_hidden. by rewrite Hnone.
  - intros Hnone. unfold extract_item, _take_string_opt, _take_hidden, select_one.
    by rewrite !Hnone.
  - intros self i t s c Hi Hst Hc Hsoup. eexists. split.
    + rewrite step_unfold, Hi. simpl. unfold _parse_item.
      by rewrite Hst, Hc, Hsoup.
    + simpl. split; [|done].
      apply list_lookup_insert_eq. eauto using lookup_lt_Some.
Qed.

Lemma can_return_loads self links urls menu :
  menu_nodes self = Ok links → item_links links = Ok urls →
  can_return BeautifulSoup urljoin self menu →
  positional self urls menu ∧ all_pages_load self urls.
Proof.
  intros Hn Hl [sched Hret]. by eapply fetch_menu_returns.
Qed.

Lemma limit_irrelevant self links urls k k' menu :
  menu_nodes self = Ok links → item_links links = Ok urls → 1 ≤ k' →
  can_return BeautifulSoup urljoin (with_limit k self) menu →
  must_return BeautifulSoup urljoin (with_limit k' self) menu.
Proof.
  intros Hn Hl Hlimit Hcan.
  destruct (can_return_loads (with_limit k self) links urls menu Hn Hl Hcan)
    as [Hpos Hload].
  intros sched. split.
  - intros menu' Hret. eapply positional_unique; [|exact Hpos].
    by destruct (fetch_menu_returns (with_limit k' self) links urls sched menu' Hn Hl Hret).
  - destruct (fetch_menu_completes (with_limit k' self) links urls sched Hn Hl Hlimit Hload)
      as (ext & menu' & _ & Hret & Hpos').
    exists ext. rewrite Hret. f_equal.
    eapply positional_unique; [exact Hpos'|exact Hpos].
Qed.

(** C8: a limit of at least [N] and a limit between 1 and [N] give the
    same menu: if some schedule under one of the two limits makes
    [fetch_menu] return [menu], then under the other limit no schedule
    returns anything else and every schedule can be carried on until
    [fetch_menu] returns [menu]. *)
Theorem C8_limit_changes_no_result self links urls k k' menu :
  menu_nodes self = Ok links → item_links links = Ok urls →
  length urls ≤ k → 1 ≤ k' → k' ≤ length urls →
  (can_return BeautifulSoup urljoin (with_limit k self) menu →
   must_return BeautifulSoup urljoin (with_limit k' self) menu)
  ∧ (can_return BeautifulSoup urljoin (with_limit k' self) menu →
     must_return BeautifulSoup urljoin (with_limit k self) menu).
Proof.
  intros Hn Hl Hk Hk' Hk'N. split.
  - by apply (limit_irrelevant self links urls).
  - apply (limit_irrelevant self links urls); [done..|lia].
Qed.

Lemma returns_all_returned s menu :
  gather_outcome s = Returns menu →
  ∀ i t, tasks s !! i = Some t → ∃ item, stage t = Returned item.
Proof.
  unfold gather_outcome. destruct (outer s); [done|].
  destruct (results (tasks s)) as [menu'|] eqn:Hres; [|done].
  intros _ i t Hi. apply mapM_Some in Hres.
  destruct (Forall2_lookup_l _ _ _ _ _ Hres Hi) as (item & _ & Hst).
  exists item. by destruct (stage t); simplify_eq.
Qed.

(** When [gather] returns, the pages navigated to are the URLs it was
    given, each as many times as it occurs among them. *)
Lemma returns_navigations self urls s menu :
  loop_inv self urls s → gather_outcome s = Returns menu →
  (navigations (log s)).*2 ≡ₚ urls.
Proof.
  intros Hinv Hret.
  assert (navigations (log s) ≡ₚ imap pair urls) as ->.
  { apply NoDup_Permutation.
    - by eapply inv_nav_nodup.
    - apply NoDup_alt. intros i j [k url]. rewrite !list_lookup_imap.
      destruct (urls !! i), (urls !! j); intros; by simplify_eq/=.
    - intros [i url]. rewrite (inv_nav _ _ _ _ Hinv), elem_of_lookup_imap.
      rewrite <-(inv_links _ _ _ _ Hinv). split.
      + intros (t & Hi & Hlink & _). exists i, url. split; [done|].
        by rewrite list_lookup_fmap, Hi; simpl; rewrite Hlink.
      + intros (j & url' & ? & Hj). simplify_eq.
        rewrite list_lookup_fmap in Hj.
        destruct (tasks s !! j) as [t|] eqn:Ht; simplify_eq/=.
        exists t. split_and!; [done..|].
        destruct (returns_all_returned s menu Hret j t Ht) as [item Hst].
        unfold navigated. by rewrite Hst. }
  rewrite fmap_imap. rewrite (imap_ext _ (const id)); [|done].
  by rewrite imap_const, list_fmap_id.
Qed.

(** C10: [fetch_menu] drops no link and merges none. When it returns,
    every node taken for an item link had an [href] that [urljoin] made
    a URL of, the menu has one item per node, the [i]-th item being the one extracted from the page
    of the [i]-th node's URL, and the pages navigated to are those URLs,
    each as many times as it occurs among the links. *)
Theorem C10_one_item_per_link self links sched menu :
  menu_nodes self = Ok links →
  (fetch_menu self sched).1 = Returns menu →
  ∃ urls,
    Forall2 (λ link url, ∃ href, attrs link !! lit "href" = Some href
                                 ∧ urljoin BASE_URL href = Ok url) links urls
    ∧ length menu = length links
    ∧ positional self urls menu
    ∧ (navigations (fetch_menu self sched).2).*2 ≡ₚ urls.
Proof.
  intros Hn Hret.
  destruct (item_links links) as [urls|e] eqn:Hl.
  - pose proof (item_links_ok links urls Hl) as Hlinks.
    destruct (fetch_menu_returns self links urls sched menu Hn Hl Hret) as [Hpos _].
    exists urls. split_and!; [done| |done|].
    + destruct Hpos as [-> _]. symmetry. by eapply Forall2_length.
    + rewrite (fetch_menu_run self links urls sched Hn Hl) in *. simpl in *.
      eapply returns_navigations, Hret. apply reachable_inv.
  - rewrite fetch_menu_unfold in Hret. by rewrite Hn, Hl in Hret.
Qed.
End Claims.

(** ** The crawler at work on the small world *)

Section Witnesses.
Import Demo.

Example crawl_round_robin :
  (crawl steady (lit "listing") 2 round_robin).1 = Returns menu.
Proof. vm_compute. reflexivity. Qed.

Example crawl_round_robin_wide :
  (crawl steady (lit "listing") 5 round_robin).1 = Returns menu.
Proof. vm_compute. reflexivity. Qed.

Example crawl_fails :
  (crawl flaky (lit "listing") 2 round_robin).1 = Raises net_err.
Proof. vm_compute. reflexivity. Qed.

(** Pages left open by failed invocations add to those of running ones:
    with a limit of 1, two pages are open at once. *)
Example leaked_pages_exceed_limit :
  let s := run html_parser (parser flaky (lit "listing") 1) [1; 1; 1; 0; 0]
             (gather (parser flaky (lit "listing") 1) urls) in
  active (tasks s) = 1 ∧ open_pages (tasks s) = 2.
Proof. vm_compute. done. Qed.

Example crawl_short :
  (crawl steady (lit "listing") 2 [0; 1; 2; 0]).1 = Pending.
Proof. vm_compute. reflexivity. Qed.

Lemma C1_witness : positional html_parser (shop 2) urls menu.
Proof.
  eapply (C1_results_follow_link_order html_parser urljoin (shop 2) links urls).
  - reflexivity.
  - reflexivity.
  - simpl. lia.
  - instantiate (1 := round_robin). vm_compute. reflexivity.
Defined.

Lemma C2_witness : page failed = PageOpen.
Proof.
  assert (tasks (run html_parser flaky_shop [1; 1; 1] (gather flaky_shop urls)) !! 1
          = Some failed) as Hi by reflexivity.
  destruct (C2_page_closed_unless_failure_before_close html_parser flaky_shop
              urls [1; 1; 1] 1 failed Hi) as (_ & Hopen & _).
  apply (Hopen net_err); [reflexivity|].
  split; [reflexivity|]. left. discriminate.
Defined.

Lemma C2_counterexample : ¬ closes_page_on_every_exit html_parser flaky_shop urls.
Proof.
  intros Hclosed. apply (Hclosed [1; 1; 1] 1 failed); reflexivity.
Qed.

Lemma C3_witness :
  (crawl flaky (lit "listing") 2 ([0; 1; 1] ++ 1 :: [0; 2; 0; 2])).1 = Raises net_err.
Proof.
  assert (menu_nodes html_parser urljoin flaky_shop = Ok links) as Hn by reflexivity.
  assert (item_links urljoin links = Ok urls) as Hl by reflexivity.
  assert (urls !! 1 = Some (BASE_URL ++ lit "/b")) as Hurl by reflexivity.
  assert (new_page_res (context flaky_shop 1 (BASE_URL ++ lit "/b")) = None)
    as Hnew by reflexivity.
  assert (goto_res (context flaky_shop 1 (BASE_URL ++ lit "/b")) = Some net_err)
    as Hgoto by reflexivity.
  destruct (C3_navigation_failure_aborts html_parser urljoin flaky_shop links urls
              1 (BASE_URL ++ lit "/b") net_err Hn Hl Hurl Hnew Hgoto
              [0; 1; 1]) as (_ & Hfails & _).
  destruct (Hfails (mkTask (BASE_URL ++ lit "/b") AtGoto PageOpen))
    as (s' & _ & _ & Hraises); [reflexivity..|].
  exact (Hraises [0; 2; 0; 2]).
Defined.

Lemma C5_witness :
  fats (extract_item (parse (lit "page"))) = ten_twenty_thirty.
Proof.
  eapply (C5_joined_fields (parse (lit "page")) fats fats_selector).
  - right. left.
  - reflexivity.
  - reflexivity.
  - reflexivity.
  - reflexivity.
Defined.

Lemma C6_witness :
  name (extract_item (parse (lit "page"))) = lit "page".
Proof.
  assert ((name, name_selector) ∈ string_opt_fields) as Hin by left.
  exact (proj1 (C6_single_fields (parse (lit "page")) name name_selector Hin)).
Defined.

Lemma C7_witness :
  extract_item (mkDoc [] []) = mkMenuItem [] [] [] [] [] [] [] [] [] [].
Proof.
  apply (proj1 (proj2 (C7_extraction_never_raises html_parser (mkDoc [] [])))).
  intros sel. reflexivity.
Defined.

Lemma C8_witness : must_return html_parser urljoin (with_limit 2 (shop 5)) menu.
Proof.
  eapply (C8_limit_changes_no_result html_parser urljoin (shop 5) links urls 5 2 menu).
  - reflexivity.
  - reflexivity.
  - simpl. lia.
  - lia.
  - simpl. lia.
  - exists round_robin. vm_compute. reflexivity.
Defined.

Lemma C9_witness :
  crawl steady (lit "broken") 2 round_robin = (Raises (KeyError (lit "href")), []).
Proof.
  assert (menu_nodes html_parser urljoin (parser steady (lit "broken") 2)
          = Ok [anchor (lit "/a"); mkTag ∅ []; anchor (lit "/b")]) as Hn
    by reflexivity.
  assert (∃ link, link ∈ [anchor (lit "/a"); mkTag ∅ []; anchor (lit "/b")]
                  ∧ attrs link !! lit "href" = None) as Hmiss.
  { exists (mkTag ∅ []). split; [right; left|reflexivity]. }
  destruct (C9_first_failing_link_raises html_parser urljoin _ _ Hn Hmiss
              round_robin) as [_ Hkey].
  apply (Hkey [anchor (lit "/a")] (mkTag ∅ []) [anchor (lit "/b")]).
  split_and!; [reflexivity..|]. constructor; [|constructor].
  exists (lit "/a"), (BASE_URL ++ lit "/a"). split; reflexivity.
Defined.

(** The listing ["malformed"] has a link whose [href] [urljoin] rejects
    before the link without [href]: the caller gets [ValueError]. *)
Lemma C9_counterexample :
  ¬ missing_href_gives_KeyError html_parser urljoin
      (parser steady (lit "malformed") 2).
Proof.
  intros Hkey.
  assert ((crawl steady (lit "malformed") 2 []).1 = Raises (KeyError (lit "href")))
    as Habs.
  { apply (Hkey [anchor (lit "//["); mkTag ∅ []]); [reflexivity|].
    exists (mkTag ∅ []). split; [right; left|reflexivity]. }
  vm_compute in Habs. discriminate.
Qed.

Lemma C10_witness :
  ∃ found,
    Forall2 (λ link url, ∃ href, attrs link !! lit "href" = Some href
                                 ∧ urljoin BASE_URL href = Ok url) links found
    ∧ length menu = length links
    ∧ positional html_parser (shop 2) found menu
    ∧ (navigations (crawl steady (lit "listing") 2 round_robin).2).*2 ≡ₚ found.
Proof.
  apply (C10_one_item_per_link html_parser urljoin (shop 2) links round_robin menu).
  - reflexivity.
  - vm_compute. reflexivity.
Defined.
End Witnesses.

(** * Further properties *)

(** ** Field extraction, the listing and the event loop *)

Section Extraction2.
Context `{Document Soup}.

(** X1: on a selector that matches at most one node, the two readers give
    the same value. *)
Theorem X1_readers_agree_on_one_match (soup : Soup) sel :
  length (select soup sel) ≤ 1 →
  _take_hidden soup sel = _take_string_opt soup sel.
Proof.
  unfold _take_hidden, _take_string_opt, select_one.
  destruct (select soup sel) as [|tag [|tag' tags]]; simpl; [done..|lia].
Qed.

Lemma join_empty_pieces n : join newline (replicate n []) = replicate (pred n) 10%N.
Proof.
  induction n as [|[|n] IH]; [done..|].
  change (join newline (replicate (S (S n)) []))
    with ([] ++ newline ++ join newline (replicate (S n) [])).
  by rewrite IH.
Qed.

(** X2: blank nodes are neither dropped nor told from missing ones. When
    the first match is all whitespace the single-mode value is empty, as
    for no match; when all [n] matches are all whitespace the joined value
    is [n - 1] newlines, so empty for one blank match as for none. *)
Theorem X2_blank_nodes (soup : Soup) sel :
  ((∀ tag, head (select soup sel) = Some tag → whitespace (text tag)) →
   _take_string_opt soup sel = [])
  ∧ (Forall (λ tag, whitespace (text tag)) (select soup sel) →
     _take_hidden soup sel = replicate (pred (length (select soup sel))) 10%N).
Proof.
  unfold _take_hidden, _take_string_opt, select_one. split.
  - intros Hblank. destruct (select soup sel) as [|tag tags]; simpl; [done|].
    by apply strip_whitespace, Hblank.
  - intros Hblank. assert ((λ tag, strip (text tag)) <$> select soup sel
            = replicate (length (select soup sel)) []) as ->.
    { induction Hblank as [|tag tags Htag _ IH]; [done|].
      by rewrite fmap_cons, (strip_whitespace _ Htag), IH. }
    apply join_empty_pieces.
Qed.
End Extraction2.

Section Scheduler2.
Context `{Document Soup}.
Variable BeautifulSoup : str → result Soup.
Variable urljoin : str → str → result str.

Local Abbreviation step := (step BeautifulSoup).
Local Abbreviation run := (run BeautifulSoup).
Local Abbreviation loop_inv := (loop_inv BeautifulSoup).
Local Abbreviation positional := (positional BeautifulSoup).
Local Abbreviation all_pages_load := (all_pages_load BeautifulSoup).
Local Abbreviation script_failure := (script_failure BeautifulSoup).
Local Abbreviation menu_nodes := (menu_nodes BeautifulSoup urljoin).
Local Abbreviation item_links := (item_links urljoin).
Local Abbreviation fetch_menu := (fetch_menu BeautifulSoup urljoin).

Lemma run_no_tasks self sched s : tasks s = [] → run self sched s = s.
Proof.
  intros Hnil. induction sched as [|i sched IH]; simpl; [done|].
  by rewrite step_unfold, Hnil.
Qed.

(** X3: a listing without item links gives the empty menu at once: under
    every schedule [fetch_menu] returns [[]] and no call is made on any
    page. *)
Theorem X3_empty_listing self :
  menu_nodes self = Ok [] →
  ∀ sched, fetch_menu self sched = (Returns [], []).
Proof.
  intros Hn sched. rewrite (fetch_menu_run _ _ self [] [] sched Hn eq_refl).
  by rewrite run_no_tasks.
Qed.

(** With no slot at all, tasks can only join the queue. *)
Lemma run_no_slot self urls sched :
  max_sim_pages self = 0 →
  let s := run self sched (gather self urls) in
  Forall (λ t, stage t = Created ∨ stage t = Waiting) (tasks s)
  ∧ length (tasks s) = length urls
  ∧ value (semaphore s) = 0 ∧ outer s = None ∧ log s = [].
Proof.
  intros Hzero. simpl.
  assert (∀ s, Forall (λ t, stage t = Created ∨ stage t = Waiting) (tasks s)
               ∧ length (tasks s) = length urls
               ∧ value (semaphore s) = 0 ∧ outer s = None ∧ log s = [] →
          Forall (λ t, stage t = Created ∨ stage t = Waiting) (tasks (run self sched s))
          ∧ length (tasks (run self sched s)) = length urls
          ∧ value (semaphore (run self sched s)) = 0
          ∧ outer (run self sched s) = None ∧ log (run self sched s) = []) as Hrun.
  { induction sched as [|i sched IH]; intros s Hs; simpl; [done|].
    apply IH. destruct Hs as (Hall & Hlen & Hval & Hout & Hlog).
    rewrite step_unfold. destruct (tasks s !! i) as [t|] eqn:Hi; simpl; [|done].
    pose proof (Forall_lookup_1 _ _ _ _ Hall Hi) as Ht.
    unfold _parse_item. destruct Ht as [Ht|Ht]; rewrite Ht; simpl; [|done].
    unfold acquire. rewrite bool_decide_false by (rewrite Hval; lia). simpl.
    split_and!; try done.
    - apply Forall_insert; [done|]. by right.
    - by rewrite length_insert. }
  apply Hrun. simpl. rewrite length_fmap. split_and!; try done.
  apply Forall_fmap, Forall_true. intros url. by left.
Qed.

(** X4: with [max_sim_pages = 0] and at least one item link, [fetch_menu]
    never completes: under every schedule it is still pending, and no call
    has been made on any page. *)
Theorem X4_zero_limit_hangs self links urls :
  menu_nodes self = Ok links → item_links links = Ok urls →
  max_sim_pages self = 0 → urls ≠ [] →
  ∀ sched, fetch_menu self sched = (Pending, []).
Proof.
  intros Hn Hl Hzero Hne sched.
  rewrite (fetch_menu_run _ _ self links urls sched Hn Hl).
  destruct (run_no_slot self urls sched Hzero) as (Hall & Hlen & _ & Hout & ->).
  f_equal. unfold gather_outcome. rewrite Hout.
  destruct (tasks (run self sched (gather self urls))) as [|t ts] eqn:Hts.
  { destruct urls; [done|]. simpl in Hlen. lia. }
  apply Forall_cons in Hall as [Ht _].
  unfold results. simpl. by destruct Ht as [-> | ->].
Qed.


(** X7: when [gather] returns, every page that was opened has been
    closed. *)
Theorem X7_no_page_open_on_return self urls sched menu :
  gather_outcome (run self sched (gather self urls)) = Returns menu →
  open_pages (tasks (run self sched (gather self urls))) = 0.
Proof.
  intros Hret. pose proof (reachable_inv BeautifulSoup self urls sched) as Hinv.
  apply sum_list_with_zero. intros k t Hk.
  destruct (returns_all_returned _ menu Hret k t Hk) as [item Hst].
  pose proof (inv_tasks _ _ _ _ Hinv k t Hk) as Hwf. unfold task_wf in Hwf.
  rewrite Hst in Hwf. destruct Hwf as (_ & _ & ->). done.
Qed.

(** X8: the semaphore is given back on every exit path: once every
    invocation has ended, by [return] or by an exception, its value is
    [max_sim_pages] again and nobody waits for it. *)
Theorem X8_semaphore_restored self urls sched :
  let s := run self sched (gather self urls) in
  Forall (λ t, ended t = true) (tasks s) →
  value (semaphore s) = max_sim_pages self ∧ waiters (semaphore s) = [].
Proof.
  simpl. intros Hall.
  by eapply ended_semaphore, Hall; apply reachable_inv.
Qed.

(** X9: [fetch_menu] navigates only where the listing points, and once per
    link at most: in the log of any run, every navigation is that of some
    task to the URL of its own link, and no task navigates twice. *)
Theorem X9_navigations_follow_links self links urls :
  menu_nodes self = Ok links → item_links links = Ok urls →
  ∀ sched,
    NoDup (navigations (fetch_menu self sched).2)
    ∧ ∀ i url, (i, url) ∈ navigations (fetch_menu self sched).2 →
               urls !! i = Some url.
Proof.
  intros Hn Hl sched. rewrite (fetch_menu_run _ _ self links urls sched Hn Hl). simpl.
  pose proof (reachable_inv BeautifulSoup self urls sched) as Hinv. split.
  - by eapply inv_nav_nodup.
  - intros i url (t & Hi & <- & _)%(inv_nav _ _ _ _ Hinv).
    by rewrite (inv_task_link BeautifulSoup self urls _ i Hinv), Hi.
Qed.

End Scheduler2.

(** ** The JSON document *)

Lemma unhex_hex_digit n : (n < 16)%N → unhex (hex_digit n) = Some n.
Proof.
  intros Hn. rewrite <-(N2Nat.id n).
  assert (N.to_nat n < 16) as Hk by lia.
  remember (N.to_nat n) as k eqn:Heq. clear Heq Hn.
  do 16 (destruct k as [|k]; [reflexivity|]). lia.
Qed.

Lemma scan_body_escape c s :
  scan_body (escape c ++ s) = (λ r, (c :: r.1, r.2)) <$> scan_body s.
Proof.
  unfold escape.
  destruct (N.eqb_spec c 92) as [->|H92]; [done|].
  destruct (N.eqb_spec c 34) as [->|H34]; [done|].
  destruct (N.eqb_spec c 8) as [->|H8]; [done|].
  destruct (N.eqb_spec c 12) as [->|H12]; [done|].
  destruct (N.eqb_spec c 10) as [->|H10]; [done|].
  destruct (N.eqb_spec c 13) as [->|H13]; [done|].
  destruct (N.eqb_spec c 9) as [->|H9]; [done|].
  destruct (N.ltb_spec c 32) as [Hctl|Hprint].
  - change (scan_body ([92; 117; 48; 48; hex_digit (c / 16); hex_digit (c `mod` 16)]%N ++ s))
      with (a ← unhex (hex_digit (c / 16)); b ← unhex (hex_digit (c `mod` 16));
            r ← scan_body s;
            Some ((4096 * 0 + 256 * 0 + 16 * a + b)%N :: r.1, r.2)).
    rewrite !unhex_hex_digit
      by first [apply N.mod_lt; lia|apply N.Div0.div_lt_upper_bound; lia].
    simpl.
    replace (4096 * 0 + 256 * 0 + 16 * (c / 16) + c `mod` 16)%N with c;
      [by destruct (scan_body s)|].
    pose proof (N.div_mod c 16). lia.
  - change ([c] ++ s) with (c :: s). simpl.
    rewrite (proj2 (N.eqb_neq c 34) H34), (proj2 (N.eqb_neq c 92) H92).
    by rewrite (proj2 (N.ltb_ge c 32) Hprint).
Qed.

Lemma scan_body_escaped s rest :
  scan_body ((s ≫= escape) ++ 34%N :: rest) = Some (s, rest).
Proof.
  induction s as [|c s IH]; [done|].
  change ((c :: s) ≫= escape) with (escape c ++ (s ≫= escape)).
  by rewrite <-app_assoc, scan_body_escape, IH.
Qed.

Lemma read_literal_encode s rest :
  read_literal (py_encode_basestring s ++ rest) = Some (s, rest).
Proof.
  unfold py_encode_basestring.
  change (([34%N] ++ (s ≫= escape) ++ [34%N]) ++ rest)
    with (34%N :: (((s ≫= escape) ++ [34%N]) ++ rest)).
  rewrite <-app_assoc. apply scan_body_escaped.
Qed.

Lemma encode_cancel s1 s2 r1 r2 :
  py_encode_basestring s1 ++ r1 = py_encode_basestring s2 ++ r2 →
  s1 = s2 ∧ r1 = r2.
Proof.
  intros Heq.
  pose proof (read_literal_encode s1 r1) as H1.
  rewrite Heq, read_literal_encode in H1. by simplify_eq.
Qed.

(** X11: a string literal written by the encoder reads back as the text
    it was made from, whatever follows it in the document; so two texts
    never get the same literal. *)
Theorem X11_string_literal_reads_back s :
  (∀ rest, read_literal (py_encode_basestring s ++ rest) = Some (s, rest))
  ∧ (∀ s', py_encode_basestring s = py_encode_basestring s' → s = s').
Proof.
  split; [apply read_literal_encode|].
  intros s' Heq. apply (encode_cancel s s' [] []). by rewrite !app_nil_r.
Qed.


(** X12: with [ensure_ascii=False] only the quote, the backslash and the
    control characters are escaped: a text without them, whatever other
    characters it has, is written as it is between two quotes. *)
Theorem X12_plain_text_verbatim s :
  Forall (λ c, (32 ≤ c)%N ∧ c ≠ 34%N ∧ c ≠ 92%N) s →
  py_encode_basestring s = [34%N] ++ s ++ [34%N].
Proof.
  intros Hplain. unfold py_encode_basestring. do 2 f_equal.
  induction Hplain as [|c s (Hc & H34 & H92) _ IH]; [done|].
  change ((c :: s) ≫= escape) with (escape c ++ (s ≫= escape)). rewrite IH.
  unfold escape.
  rewrite (proj2 (N.eqb_neq c 92) H92), (proj2 (N.eqb_neq c 34) H34).
  rewrite !(proj2 (N.eqb_neq c _)) by lia.
  by rewrite (proj2 (N.ltb_ge c 32) Hc).
Qed.

Lemma join_cons_cons sep p q l : join sep (p :: q :: l) = p ++ sep ++ join sep (q :: l).
Proof. done. Qed.

(** An object at the head of a text determines its item and what follows. *)
Lemma dict_cancel a b level r1 r2 :
  _iterencode_dict (__dict__ a) level ++ r1 = _iterencode_dict (__dict__ b) level ++ r2 →
  a = b ∧ r1 = r2.
Proof.
  unfold _iterencode_dict, __dict__. rewrite !fmap_cons, !fmap_nil, !join_cons_cons.
  cbn [join fst snd]. rewrite <-!app_assoc. intros Heq.
  repeat first [apply app_inv_head in Heq
               |apply encode_cancel in Heq as [? Heq]].
  split; [|done]. destruct a, b; simpl in *. by subst.
Qed.

Lemma join_singleton sep p : join sep [p] = p.
Proof. done. Qed.

Lemma items_cancel l1 l2 :
  l1 ≠ [] → l2 ≠ [] →
  join comma ((λ item, _iterencode_dict (__dict__ item) 1) <$> l1) ++ closing
  = join comma ((λ item, _iterencode_dict (__dict__ item) 1) <$> l2) ++ closing →
  l1 = l2.
Proof.
  revert l2. induction l1 as [|a l1 IH]; intros [|b l2] H1 H2; try done.
  destruct l1 as [|a' l1], l2 as [|b' l2].
  - rewrite !fmap_cons, !fmap_nil, !join_singleton.
    intros Heq. by apply dict_cancel in Heq as [-> _].
  - rewrite !fmap_cons, !fmap_nil, join_singleton, join_cons_cons, <-!app_assoc.
    intros Heq. by apply dict_cancel in Heq as [_ Heq].
  - rewrite !fmap_cons, !fmap_nil, join_singleton, join_cons_cons, <-!app_assoc.
    intros Heq. by apply dict_cancel in Heq as [_ Heq].
  - rewrite !fmap_cons, !join_cons_cons, <-!app_assoc.
    intros Heq. apply dict_cancel in Heq as [-> Heq].
    apply app_inv_head in Heq. f_equal.
    apply (IH (b' :: l2)); [done..|exact Heq].
Qed.

Lemma dump_cons a l :
  dump (a :: l)
  = lit "[" ++ newline_indent 1
    ++ join comma ((λ item, _iterencode_dict (__dict__ item) 1) <$> (a :: l))
    ++ closing.
Proof.
  unfold dump, _iterencode_list, closing.
  rewrite (fmap_cons __dict__ a l). do 3 f_equal.
  by rewrite <-fmap_cons, <-list_fmap_compose.
Qed.

(** X13: the document determines the menu: two menus with the same dump
    are the same menu, items, order and every field. *)
Theorem X13_dump_injective menu menu' : dump menu = dump menu' → menu = menu'.
Proof.
  destruct menu as [|a l], menu' as [|b l']; try done.
  rewrite !dump_cons. intros Heq. do 2 apply app_inv_head in Heq.
  by apply (items_cancel (a :: l) (b :: l')).
Qed.

(** ** What can be written to the file *)

Lemma encodable_app a b : encodable (a ++ b) = encodable a && encodable b.
Proof. apply forallb_app. Qed.

Lemma surrogate_small c : (c < 55296)%N → surrogate c = false.
Proof. intros Hc. unfold surrogate. by rewrite (proj2 (N.leb_gt 55296 c) Hc). Qed.

Lemma hex_digit_small n : (n < 16)%N → (hex_digit n < 55296)%N.
Proof. unfold hex_digit. destruct (n <? 10)%N; lia. Qed.

Lemma encodable_escape c : encodable (escape c) = negb (surrogate c).
Proof.
  unfold escape.
  repeat match goal with
    | |- context [(c =? ?k)%N] => destruct (N.eqb_spec c k) as [->|?]; [done|]
    end.
  destruct (N.ltb_spec c 32) as [Hctl|Hprint]; simpl; [|by rewrite andb_true_r].
  rewrite !surrogate_small;
    [done|lia|apply hex_digit_small, N.mod_lt; lia
    |apply hex_digit_small, N.Div0.div_lt_upper_bound; lia].
Qed.

Lemma encodable_encode s : encodable (py_encode_basestring s) = encodable s.
Proof.
  unfold py_encode_basestring. rewrite !encodable_app, andb_true_r. simpl.
  induction s as [|c s IH]; [done|].
  change ((c :: s) ≫= escape) with (escape c ++ (s ≫= escape)).
  by rewrite encodable_app, encodable_escape, IH.
Qed.

Lemma encodable_newline_indent level : encodable (newline_indent level) = true.
Proof.
  unfold newline_indent. rewrite encodable_app.
  assert (∀ n, encodable (replicate n 32%N) = true) as ->; [|done].
  intros n. induction n as [|n IH]; [done|exact IH].
Qed.

Lemma encodable_join sep parts :
  encodable sep = true → encodable (join sep parts) = forallb encodable parts.
Proof.
  intros Hsep. induction parts as [|p [|q parts] IH]; [done|simpl; by rewrite andb_true_r|].
  rewrite join_cons_cons, !encodable_app, Hsep, IH. done.
Qed.

Lemma encodable_dict item level :
  encodable (_iterencode_dict (__dict__ item) level)
  = forallb (λ kv, encodable kv.2) (__dict__ item).
Proof.
  unfold _iterencode_dict, __dict__. rewrite !fmap_cons, fmap_nil.
  rewrite !encodable_app, !encodable_newline_indent.
  rewrite encodable_join by (by rewrite encodable_app, encodable_newline_indent).
  cbn [forallb fst snd]. rewrite !encodable_app, !encodable_encode.
  cbn. by rewrite !andb_true_r.
Qed.

(** X14: the document can be written to the UTF-8 file exactly when every
    field of every item can: the encoder adds and escapes nothing that
    changes it. *)
Theorem X14_dump_encodable menu :
  encodable (dump menu)
  = forallb (λ item, forallb (λ kv, encodable kv.2) (__dict__ item)) menu.
Proof.
  destruct menu as [|a l]; [done|]. rewrite dump_cons.
  rewrite !encodable_app, encodable_newline_indent.
  rewrite encodable_join by (by unfold comma; rewrite encodable_app, encodable_newline_indent).
  change (encodable (lit "[")) with true. change (encodable closing) with true.
  rewrite !andb_true_l, !andb_true_r.
  induction (a :: l) as [|b l' IH]; [done|].
  rewrite fmap_cons. cbn [forallb]. rewrite IH. f_equal. apply encodable_dict.
Qed.

(** ** [main] *)

Section MainUnfold.
Context `{Document Soup}.
Variable BeautifulSoup : str → result Soup.
Variable urljoin : str → str → result str.

Lemma main_unfold out sched :
  main BeautifulSoup urljoin out sched =
  let p := mkProcess NotStarted false false Untouched in
  match start_res out with
  | Some e => (Crashed (Exn e), p)
  | None =>
      let p := set_playwright Started p in
      match create out 6 p with
      | (Raise e, p) => (Crashed (Exn e), p)
      | (Ok parser, p) =>
          match (fetch_menu BeautifulSoup urljoin parser sched).1 with
          | Pending => (Unfinished, p)
          | Raises e => (Crashed (Exn e), p)
          | Returns menu =>
              match stop_res out with
              | Some e => (Crashed (Exn e), p)
              | None =>
                  let p := set_playwright Stopped p in
                  match open_res out with
                  | Some msg => (Crashed (OSError msg), p)
                  | None =>
                      let text := dump menu in
                      if encodable text
                      then (Finished, set_data_json (Written text) p)
                      else (Crashed (Exn UnicodeEncodeError),
                            set_data_json Incomplete p)
                  end
              end
          end
      end
  end.
Proof. reflexivity. Qed.
End MainUnfold.

Section MainProps.
Context `{Document Soup}.
Variable BeautifulSoup : str → result Soup.
Variable urljoin : str → str → result str.

Local Abbreviation menu_nodes := (menu_nodes BeautifulSoup urljoin).
Local Abbreviation item_links := (item_links urljoin).
Local Abbreviation fetch_menu := (fetch_menu BeautifulSoup urljoin).
Local Abbreviation positional := (positional BeautifulSoup).
Local Abbreviation all_pages_load := (all_pages_load BeautifulSoup).
Local Abbreviation script_failure := (script_failure BeautifulSoup).
Local Abbreviation main := (main BeautifulSoup urljoin).

(** The parser [main] creates: six pages at a time. *)
Local Abbreviation parser_of out := (mkMacParser (get_res out) (page_runs out) 6).


(** X15: one failing item page means no output at all. When something
    raises in the invocation of some link (a call on its page, the parse of
    its content or the [print] of its line), then under every schedule
    [main] does not finish normally, [data.json] is not even opened, and
    Playwright is not stopped. *)
Theorem X15_no_output_when_a_page_fails out links urls i url e :
  menu_nodes (parser_of out) = Ok links → item_links links = Ok urls →
  urls !! i = Some url → script_failure (page_runs out i url) = Some e →
  ∀ sched,
    (main out sched).1 ≠ Finished
    ∧ data_json (main out sched).2 = Untouched
    ∧ playwright (main out sched).2 ≠ Stopped.
Proof.
  intros Hn Hl Hurl Hfail sched. rewrite main_unfold. unfold create.
  destruct (start_res out); [done|]. destruct (launch_res out); [done|].
  destruct (new_context_res out); [done|]. simpl.
  destruct (fetch_menu _ sched).1 as [|e'|menu] eqn:Hout; [done..|].
  destruct (fetch_menu_returns _ _ (parser_of out) links urls sched menu Hn Hl Hout)
    as [_ Hload].
  specialize (Hload i url Hurl). simpl in Hload. congruence.
Qed.

End MainProps.

(** ** The whole program at work on the small world *)

Section MoreWitnesses.
Import Demo.

Example main_writes_the_menu :
  main html_parser urljoin (world steady) round_robin
  = (Finished, mkProcess Stopped true true (Written (dump menu))).
Proof. vm_compute. reflexivity. Qed.

(** A title with a lone surrogate stops the crawl at the [print] of its
    line, when the standard output refuses it, and the dump otherwise. *)
Example main_crashes_on_a_surrogate :
  main html_parser urljoin (world odd) round_robin
  = (Crashed (Exn UnicodeEncodeError), mkProcess Started true true Untouched).
Proof. vm_compute. reflexivity. Qed.

Example main_crashes_in_the_dump :
  main html_parser urljoin (world odd_lenient) round_robin
  = (Crashed (Exn UnicodeEncodeError), mkProcess Stopped true true Incomplete).
Proof. vm_compute. reflexivity. Qed.

Example main_crashes_on_rejected_markup :
  main html_parser urljoin (world garbled) round_robin
  = (Crashed (Exn (ParserRejectedMarkup (lit "unknown status keyword"))),
     mkProcess Started true true Untouched).
Proof. vm_compute. reflexivity. Qed.

Example main_crashes_with_the_page :
  main html_parser urljoin (world flaky) round_robin
  = (Crashed (Exn net_err), mkProcess Started true true Untouched).
Proof. vm_compute. reflexivity. Qed.

Lemma X1_witness :
  _take_hidden (parse (lit "page")) description_selector
  = _take_string_opt (parse (lit "page")) description_selector.
Proof.
  apply (X1_readers_agree_on_one_match (parse (lit "page")) description_selector).
  vm_compute. lia.
Defined.

Lemma X2_witness :
  _take_hidden (mkDoc [(salt_selector, [span (lit "  "); span [9%N]; span []])] [])
    salt_selector = [10%N; 10%N].
Proof.
  assert (Forall (λ tag, whitespace (text tag))
            (select (mkDoc [(salt_selector, [span (lit "  "); span [9%N]; span []])] [])
               salt_selector)) as Hblank by repeat constructor.
  exact (proj2 (X2_blank_nodes _ salt_selector) Hblank).
Defined.

Lemma X3_witness : crawl steady (lit "page") 2 round_robin = (Returns [], []).
Proof.
  apply (X3_empty_listing html_parser urljoin (parser steady (lit "page") 2)).
  reflexivity.
Defined.

Lemma X4_witness : crawl steady (lit "listing") 0 round_robin = (Pending, []).
Proof.
  apply (X4_zero_limit_hangs html_parser urljoin (shop 0) links urls).
  - reflexivity.
  - reflexivity.
  - reflexivity.
  - discriminate.
Defined.


Lemma X7_witness :
  open_pages (tasks (run html_parser (shop 2) round_robin (gather (shop 2) urls))) = 0.
Proof.
  apply (X7_no_page_open_on_return html_parser (shop 2) urls round_robin menu).
  vm_compute. reflexivity.
Defined.

Lemma X8_witness :
  value (semaphore (run html_parser flaky_shop round_robin (gather flaky_shop urls))) = 2
  ∧ waiters (semaphore (run html_parser flaky_shop round_robin (gather flaky_shop urls))) = [].
Proof.
  apply (X8_semaphore_restored html_parser flaky_shop urls round_robin).
  vm_compute. repeat constructor.
Defined.

Lemma X9_witness :
  NoDup (navigations (crawl flaky (lit "listing") 2 round_robin).2).
Proof.
  apply (X9_navigations_follow_links html_parser urljoin flaky_shop links urls).
  - reflexivity.
  - reflexivity.
Defined.

Lemma X11_witness : [97%N; 92%N; 10%N] = [97%N; 92%N] ++ newline.
Proof.
  apply (X11_string_literal_reads_back [97%N; 92%N; 10%N]). reflexivity.
Defined.

Lemma X12_witness :
  py_encode_basestring [1041%N; 128512%N] = [34%N; 1041%N; 128512%N; 34%N].
Proof.
  apply (X12_plain_text_verbatim [1041%N; 128512%N]).
  repeat constructor; lia.
Defined.

Lemma X13_witness : menu = [item (BASE_URL ++ lit "/a"); item (BASE_URL ++ lit "/b");
                           item (BASE_URL ++ lit "/a")].
Proof. apply (X13_dump_injective menu). reflexivity. Defined.

Lemma X15_witness :
  data_json (main html_parser urljoin (world flaky) round_robin).2 = Untouched.
Proof.
  eapply (X15_no_output_when_a_page_fails html_parser urljoin (world flaky) links urls
            1 (BASE_URL ++ lit "/b") net_err).
  - reflexivity.
  - reflexivity.
  - reflexivity.
  - reflexivity.
Defined.

End MoreWitnesses.
